(** * Curve mathematics of curve-visualizer-studio

    Shallow embedding of the curve core ([types.ts], [hermite.ts],
    [bezier.ts], [matrices.ts], [bspline.ts]).  JavaScript numbers are
    modelled by exact rationals [Q]; equalities between computed numbers
    are stated up to [Qeq].  In the B-spline module, where the source reads
    knot vectors out of range and divides without a guard, a number is an
    [option Q]: [None] stands for a non-finite JavaScript value ([NaN],
    [undefined] or an infinity produced by a division by zero). *)

From Stdlib Require Import QArith Qfield Lqa Lia List Bool ZArith.
Import ListNotations.

Open Scope Q_scope.

(** ** Types ([types.ts]) *)

Record Point := mkPoint { x : Q; y : Q }.

Record CubicPolynomial := mkCubic { a : Q; b : Q; c : Q; d : Q }.

Record HermiteForm := mkHermite { P0 : Point; P1 : Point; T0 : Point; T1 : Point }.

Record TrimRange := mkTrim { u1 : Q; u2 : Q }.

(** Equality of points over exact arithmetic. *)
Definition point_eq (p q : Point) : Prop := x p == x q /\ y p == y q.

(** [Math.pow(b, e)] for the non-negative integer exponents the code uses. *)
Fixpoint Math_pow (b : Q) (e : nat) : Q :=
  match e with
  | O => 1
  | S e' => b * Math_pow b e'
  end.

Definition Qnat (n : nat) : Q := inject_Z (Z.of_nat n).

(** ** Bezier module ([bezier.ts]) *)
Module Bezier.

(** [binomial(n, k)]: the incremental product
    [for (i = 1; i <= k; i++) result *= (n + 1 - i) / i]. *)
Definition binomial_loop (n k : nat) : Q :=
  fold_left (fun result i => result * (inject_Z (Z.of_nat n + 1 - Z.of_nat i) / Qnat i))
    (seq 1 k) 1.

(** [k < 0] cannot happen on [nat]. *)
Definition binomial (n k : nat) : Q :=
  if Nat.ltb n k then 0
  else if Nat.eqb k 0 || Nat.eqb k n then 1
  else binomial_loop n k.

(** [bernstein(i, n, u)]; [i < 0] cannot happen on [nat]. *)
Definition bernstein (i n : nat) (u : Q) : Q :=
  if Nat.ltb n i then 0
  else binomial n i * Math_pow (1 - u) (n - i) * Math_pow u i.

(** One level of de Casteljau: [newPoints[i] = (1-u) points[i] + u points[i+1]]
    for [i = 0 .. points.length - 2]. *)
Definition lerp (u : Q) (p q : Point) : Point :=
  mkPoint ((1 - u) * x p + u * x q) ((1 - u) * y p + u * y q).

Fixpoint deCasteljau_level (points : list Point) (u : Q) : list Point :=
  match points with
  | p :: ((q :: _) as rest) => lerp u p q :: deCasteljau_level rest u
  | _ => []
  end.

(** [deCasteljau(points, u)]: the recursion of the source, run with a fuel
    bound; [None] means the fuel ran out (the JavaScript call does not
    return). *)
Fixpoint deCasteljau_fuel (fuel : nat) (points : list Point) (u : Q) : option Point :=
  match fuel with
  | O => None
  | S fuel' =>
      match points with
      | [p] => Some p
      | _ => deCasteljau_fuel fuel' (deCasteljau_level points u) u
      end
  end.

Definition deCasteljau (points : list Point) (u : Q) : option Point :=
  deCasteljau_fuel (length points) points u.

(** The loop of [evaluateBezier]: [i] is the index of the head of [pts]
    in [points], [(ax, ay)] the accumulators [x] and [y]. *)
Fixpoint evaluateBezier_loop (pts : list Point) (i n : nat) (u : Q) (ax ay : Q) : Point :=
  match pts with
  | [] => mkPoint ax ay
  | p :: rest =>
      let basis := bernstein i n u in
      evaluateBezier_loop rest (S i) n u (ax + x p * basis) (ay + y p * basis)
  end.

Definition evaluateBezier (points : list Point) (u : Q) : Point :=
  evaluateBezier_loop points 0 (length points - 1) u 0 0.

End Bezier.

(** ** Errors thrown by the core *)
Inductive Error :=
| DimensionMismatch          (* [multiply] / [multiplyVector] shape check *)
| NotImplemented (n : Z)     (* [bezierToPowerMatrix], [subdivisionMatrix] *)
| TypeError.                 (* [A[0].length] on an empty matrix *)

Inductive result (A : Type) :=
| Ok (v : A)
| Err (e : Error).
Arguments Ok {A} v.
Arguments Err {A} e.

Definition bind {A B : Type} (r : result A) (f : A -> result B) : result B :=
  match r with
  | Ok v => f v
  | Err e => Err e
  end.

Notation "'let*' v := r 'in' body" := (bind r (fun v => body))
  (at level 200, v name, r at level 100, body at level 200).

(** ** Matrices ([matrices.ts]) *)
Module Matrices.

Definition Matrix := list (list Q).

(** [result[i] = sum_j A[i][j] * v[j]] for [j < cols]; the matrices of the
    core are rectangular, so [A[i][j]] is always in range. *)
Definition row_times (row : list Q) (v : list Q) (cols : nat) : Q :=
  fold_left (fun acc j => acc + nth j row 0 * nth j v 0) (seq 0 cols) 0.

Definition multiplyVector (A : Matrix) (v : list Q) : result (list Q) :=
  match A with
  | [] => Err TypeError
  | row0 :: _ =>
      let cols := length row0 in
      if negb (Nat.eqb cols (length v)) then Err DimensionMismatch
      else Ok (map (fun row => row_times row v cols) A)
  end.

Definition hermiteMatrix : Matrix :=
  [ [2; -2; 1; 1];
    [-3; 3; -2; -1];
    [0; 0; 1; 0];
    [1; 0; 0; 0] ].

Definition bezierToPowerMatrix (n : Z) : result Matrix :=
  if Z.eqb n 2 then
    Ok [ [1; -2; 1];
         [-2; 2; 0];
         [1; 0; 0] ]
  else if Z.eqb n 3 then
    Ok [ [-1; 3; -3; 1];
         [3; -6; 3; 0];
         [-3; 3; 0; 0];
         [1; 0; 0; 0] ]
  else Err (NotImplemented n).

End Matrices.

(** ** Hermite module ([hermite.ts]) *)
Module Hermite.
Import Matrices.

Definition hermiteToPolynomial (form : HermiteForm) : result (CubicPolynomial * CubicPolynomial) :=
  let H := hermiteMatrix in
  let gx := [x (P0 form); x (P1 form); x (T0 form); x (T1 form)] in
  let* cx := multiplyVector H gx in
  let gy := [y (P0 form); y (P1 form); y (T0 form); y (T1 form)] in
  let* cy := multiplyVector H gy in
  Ok (mkCubic (nth 0 cx 0) (nth 1 cx 0) (nth 2 cx 0) (nth 3 cx 0),
      mkCubic (nth 0 cy 0) (nth 1 cy 0) (nth 2 cy 0) (nth 3 cy 0)).

Definition polynomialToHermite (polyX polyY : CubicPolynomial) : HermiteForm :=
  let ax := a polyX in let bx := b polyX in let cx := c polyX in let dx := d polyX in
  let ay := a polyY in let by_ := b polyY in let cy := c polyY in let dy := d polyY in
  mkHermite (mkPoint dx dy)
            (mkPoint (ax + bx + cx + dx) (ay + by_ + cy + dy))
            (mkPoint cx cy)
            (mkPoint (3 * ax + 2 * bx + cx) (3 * ay + 2 * by_ + cy)).

Definition hermite_eq (f g : HermiteForm) : Prop :=
  point_eq (P0 f) (P0 g) /\ point_eq (P1 f) (P1 g) /\
  point_eq (T0 f) (T0 g) /\ point_eq (T1 f) (T1 g).

End Hermite.

(** ** Bezier trimming and power-basis conversion ([bezier.ts]) *)
Module BezierTrim.
Import Bezier Matrices.

Definition origin : Point := mkPoint 0 0.

(** First loop of [getTrimmedControlPoints]:
    [leftPoints.push(tempPoints[0]); tempPoints = next level at u1].
    [tempPoints] is never empty while the loop runs. *)
Fixpoint left_loop (count : nat) (tempPoints : list Point) (u : Q) : list Point :=
  match count with
  | O => []
  | S count' => hd origin tempPoints :: left_loop count' (deCasteljau_level tempPoints u) u
  end.

(** Second loop: [rightPoints.unshift(tempPoints[tempPoints.length - 1])]. *)
Fixpoint right_loop (count : nat) (tempPoints : list Point) (u : Q) (rightPoints : list Point)
  : list Point :=
  match count with
  | O => rightPoints
  | S count' =>
      right_loop count' (deCasteljau_level tempPoints u) u (last tempPoints origin :: rightPoints)
  end.

Definition getTrimmedControlPoints (points : list Point) (range : TrimRange) : list Point :=
  let u1 := u1 range in
  let u2 := u2 range in
  let leftPoints := left_loop (length points) points u1 in
  let rightPoints := right_loop (length points) points u2 [] in
  let alpha := (u2 - u1) / (1 - u1) in
  map (fun lr => lerp alpha (fst lr) (snd lr)) (combine leftPoints rightPoints).

Definition bezierToPolynomial (points : list Point) : result (list Q * list Q) :=
  let degree := (Z.of_nat (length points) - 1)%Z in
  let* matrix := bezierToPowerMatrix degree in
  let xCoords := map x points in
  let yCoords := map y points in
  let* px := multiplyVector matrix xCoords in
  let* py := multiplyVector matrix yCoords in
  Ok (px, py).

(** Value at [u] of the power-basis coefficients, highest degree first. *)
Fixpoint horner (coeffs : list Q) (u acc : Q) : Q :=
  match coeffs with
  | [] => acc
  | cf :: rest => horner rest u (acc * u + cf)
  end.

End BezierTrim.

(** ** B-spline module ([bspline.ts]) *)
Module BSpline.

(** A JavaScript number: [Some q] a finite value, [None] a non-finite one
    ([NaN], [undefined], an infinity).  Arithmetic on a non-finite operand
    gives a non-finite value; a finite value divided by zero is
    non-finite; comparisons with a non-finite value are [false], and
    [NaN !== 0] is [true]. *)
Definition jsnum := option Q.

Definition jadd (p q : jsnum) : jsnum :=
  match p, q with Some p, Some q => Some (p + q) | _, _ => None end.
Definition jsub (p q : jsnum) : jsnum :=
  match p, q with Some p, Some q => Some (p - q) | _, _ => None end.
Definition jmul (p q : jsnum) : jsnum :=
  match p, q with Some p, Some q => Some (p * q) | _, _ => None end.
Definition jdiv (p q : jsnum) : jsnum :=
  match p, q with
  | Some p, Some q => if Qeq_bool q 0 then None else Some (p / q)
  | _, _ => None
  end.
Definition jle (p q : jsnum) : bool :=
  match p, q with Some p, Some q => Qle_bool p q | _, _ => false end.
Definition jlt (p q : jsnum) : bool :=
  match p, q with Some p, Some q => negb (Qle_bool q p) | _, _ => false end.
Definition jgt (p q : jsnum) : bool := jlt q p.
Definition jeq (p q : jsnum) : bool :=
  match p, q with Some p, Some q => Qeq_bool p q | _, _ => false end.
Definition jneq0 (p : jsnum) : bool :=
  match p with Some p => negb (Qeq_bool p 0) | None => true end.

Definition KnotVector := list Q.

(** [knots[i]]: [undefined] out of range. *)
Definition knot (knots : KnotVector) (i : nat) : jsnum := nth_error knots i.

Record Point := mkPoint { x : jsnum; y : jsnum }.


(** [coxDeBoor(i, k, u, knots)]. *)
Fixpoint coxDeBoor (i k : nat) (u : Q) (knots : KnotVector) : jsnum :=
  match k with
  | O =>
      if (jle (knot knots i) (Some u) && jlt (Some u) (knot knots (i + 1)))
         || (jeq (Some u) (knot knots (length knots - 1))
             && Z.eqb (Z.of_nat i) (Z.of_nat (length knots) - Z.of_nat k - 2))
      then Some 1 else Some 0
  | S k' =>
      let denom1 := jsub (knot knots (i + k)) (knot knots i) in
      let term1 :=
        if jneq0 denom1
        then jmul (jdiv (jsub (Some u) (knot knots i)) denom1) (coxDeBoor i k' u knots)
        else Some 0 in
      let denom2 := jsub (knot knots (i + k + 1)) (knot knots (i + 1)) in
      let term2 :=
        if jneq0 denom2
        then jmul (jdiv (jsub (knot knots (i + k + 1)) (Some u)) denom2)
                  (coxDeBoor (i + 1) k' u knots)
        else Some 0 in
      jadd term1 term2
  end.

(** The loop of [evaluateBSpline]; [i] is the index of the head of [cps]. *)
Fixpoint evaluateBSpline_loop (cps : list Point) (i degree : nat) (u : Q) (knots : KnotVector)
    (ax ay : jsnum) : Point :=
  match cps with
  | [] => mkPoint ax ay
  | p :: rest =>
      let basis := coxDeBoor i degree u knots in
      evaluateBSpline_loop rest (S i) degree u knots (jadd ax (jmul (x p) basis))
        (jadd ay (jmul (y p) basis))
  end.

Definition evaluateBSpline (controlPoints : list Point) (degree : nat) (u : Q)
    (knots : KnotVector) : Point :=
  evaluateBSpline_loop controlPoints 0 degree u knots (Some 0) (Some 0).

(** [knots.slice(1, -1)]. *)
Definition slice_1_m1 (knots : KnotVector) : KnotVector :=
  skipn 1 (firstn (length knots - 1) knots).

Definition zero_point : Point := mkPoint (Some 0) (Some 0).

(** One iteration of the loop building [derivCtrlPts]:
    [factor = degree / (knots[i + degree + 1] - knots[i + 1])], pushed point
    [factor * (controlPoints[i + 1] - controlPoints[i])]; both control points
    are in range for [i < n]. *)
Definition deriv_point (controlPoints : list Point) (degree : nat) (knots : KnotVector) (i : nat)
  : Point :=
  let factor := jdiv (Some (Qnat degree))
                     (jsub (knot knots (i + degree + 1)) (knot knots (i + 1))) in
  let pi := nth i controlPoints zero_point in
  let pi1 := nth (i + 1) controlPoints zero_point in
  mkPoint (jmul factor (jsub (x pi1) (x pi))) (jmul factor (jsub (y pi1) (y pi))).

Definition derivCtrlPts (controlPoints : list Point) (degree : nat) (knots : KnotVector)
  : list Point :=
  let n := (length controlPoints - 1)%nat in
  fold_left (fun acc i => acc ++ [deriv_point controlPoints degree knots i]) (seq 0 n) [].

Definition bsplineDerivative (controlPoints : list Point) (degree : nat) (u : Q)
    (knots : KnotVector) : Point :=
  if Nat.leb 1 degree then
    evaluateBSpline (derivCtrlPts controlPoints degree knots) (degree - 1) u (slice_1_m1 knots)
  else zero_point.

(** [generateUniformKnots(n, k)]: the three [push] loops. *)
Definition generateUniformKnots (n k : nat) : KnotVector :=
  let knots := fold_left (fun acc _ => acc ++ [0]) (seq 0 (k + 1)) [] in
  let knots := fold_left
                 (fun acc i => acc ++ [inject_Z (Z.of_nat i) / inject_Z (Z.of_nat n - Z.of_nat k)])
                 (seq 1 (n - k - 1)) knots in
  fold_left (fun acc _ => acc ++ [1]) (seq 0 (k + 1)) knots.

(** [validateKnots(knots, n, k)]: the length check, then the first
    decreasing adjacent pair makes it return [false]. *)
Definition validateKnots (knots : KnotVector) (n k : nat) : bool :=
  if negb (Nat.eqb (length knots) (n + k + 1)) then false
  else forallb (fun i => negb (jgt (knot knots i) (knot knots (i + 1))))
               (seq 0 (length knots - 1)).

End BSpline.

(** ** Specification-side definitions *)
Module Spec.
Import Bezier.

(** [sum_{j} proj(l[j]) * bernstein(i0 + j, n, u)]. *)
Fixpoint bsum (proj : Point -> Q) (l : list Point) (n i0 : nat) (u : Q) : Q :=
  match l with
  | [] => 0
  | p :: l' => proj p * bernstein i0 n u + bsum proj l' n (S i0) u
  end.

(** [sum_{i < n} coxDeBoor(i, degree, u, knots)]. *)
Definition sum_basis (n degree : nat) (u : Q) (knots : BSpline.KnotVector) : BSpline.jsnum :=
  fold_left (fun acc i => BSpline.jadd acc (BSpline.coxDeBoor i degree u knots)) (seq 0 n) (Some 0).

(** The derivative as the spec words it: [D_i = degree / (knots[i+degree+1]
    - knots[i+1]) * (P[i+1] - P[i])] for [i = 0 .. n-1], evaluated as a
    degree [degree - 1] B-spline over the knots without the first and the
    last one; identically [(0,0)] for degree 0. *)
Definition derivative_spec (controlPoints : list BSpline.Point) (degree : nat) (u : Q)
    (knots : BSpline.KnotVector) : BSpline.Point :=
  match degree with
  | O => BSpline.mkPoint (Some 0) (Some 0)
  | S degree' =>
      let P i := nth i controlPoints BSpline.zero_point in
      let D i :=
        let factor := BSpline.jdiv (Some (Qnat degree))
                        (BSpline.jsub (BSpline.knot knots (i + degree + 1))
                                      (BSpline.knot knots (i + 1))) in
        BSpline.mkPoint (BSpline.jmul factor (BSpline.jsub (BSpline.x (P (i + 1)%nat)) (BSpline.x (P i))))
                        (BSpline.jmul factor (BSpline.jsub (BSpline.y (P (i + 1)%nat)) (BSpline.y (P i)))) in
      BSpline.evaluateBSpline (map D (seq 0 (length controlPoints - 1)))
        degree' u (removelast (tl knots))
  end.

(** The control polygon and trim range of the spec's trimming example. *)
Definition example_points : list Point := [mkPoint 0 0; mkPoint 1 2; mkPoint 3 3; mkPoint 4 0].
Definition example_range : TrimRange := mkTrim (1 # 4) (3 # 4).

(** A point whose coordinates are finite numbers. *)
Definition finite_point (p : BSpline.Point) : Prop :=
  exists qx qy, BSpline.x p = Some qx /\ BSpline.y p = Some qy.

(** Adjacent knots are in non-decreasing order. *)
Definition nondecreasing (knots : list Q) : Prop :=
  forall i, (S i < length knots)%nat -> nth i knots 0 <= nth (S i) knots 0.

End Spec.

(** ** Curve sampling: [i / numPoints] *)

(** The parameter [i / numPoints] of the sampling loops
    [for (i = 0; i <= numPoints; i++)], [numPoints] a count.  [None] is the
    one sample of [numPoints = 0], taken at [0 / 0 = NaN]; the models below
    do not evaluate a curve there. *)
Definition sample_param (i numPoints : nat) : option Q :=
  if Nat.eqb numPoints 0 then None else Some (Qnat i / Qnat numPoints).

(** ** Hermite curves ([hermite.ts]) *)
Module HermiteCurve.

Definition h0 (u : Q) : Q := 2 * Math_pow u 3 - 3 * Math_pow u 2 + 1.
Definition h1 (u : Q) : Q := -2 * Math_pow u 3 + 3 * Math_pow u 2.
Definition h2 (u : Q) : Q := Math_pow u 3 - 2 * Math_pow u 2 + u.
Definition h3 (u : Q) : Q := Math_pow u 3 - Math_pow u 2.

Definition evaluateHermite (form : HermiteForm) (u : Q) : Point :=
  let h0u := h0 u in
  let h1u := h1 u in
  let h2u := h2 u in
  let h3u := h3 u in
  mkPoint (h0u * x (P0 form) + h1u * x (P1 form) + h2u * x (T0 form) + h3u * x (T1 form))
          (h0u * y (P0 form) + h1u * y (P1 form) + h2u * y (T0 form) + h3u * y (T1 form)).

(** The [push] loop over [i = 0 .. numPoints]. *)
Definition generateHermiteCurvePoints (form : HermiteForm) (numPoints : nat) : list (option Point) :=
  map (fun i => option_map (evaluateHermite form) (sample_param i numPoints))
      (seq 0 (numPoints + 1)).

(** Value at [u] of a [CubicPolynomial]: [a u^3 + b u^2 + c u + d]. *)
Definition cubic_value (p : CubicPolynomial) (u : Q) : Q :=
  a p * Math_pow u 3 + b p * Math_pow u 2 + c p * u + d p.

End HermiteCurve.

(** ** More of [bezier.ts] *)
Module BezierCurve.
Import Bezier.

Definition generateBezierCurvePoints (points : list Point) (numPoints : nat) : list (option Point) :=
  map (fun i => option_map (evaluateBezier points) (sample_param i numPoints))
      (seq 0 (numPoints + 1)).

Definition calculateIntersectionControlPoints (P0 PStar P3 : Point) : Point * Point :=
  let P1 := mkPoint ((x P0 + 2 * x PStar) / 3) ((y P0 + 2 * y PStar) / 3) in
  let P2 := mkPoint ((2 * x PStar + x P3) / 3) ((2 * y PStar + y P3) / 3) in
  (P1, P2).

(** [bezierDerivative(points, u)]: the [push] loop over [i < n] with
    [n = points.length - 1] (no iteration for an empty polygon, where
    [n = -1]), then [evaluateBezier]. *)
Definition bezierDerivative (points : list Point) (u : Q) : Point :=
  let n := (length points - 1)%nat in
  let derivPoints :=
    map (fun i =>
           mkPoint (Qnat n * (x (nth (i + 1) points (mkPoint 0 0)) - x (nth i points (mkPoint 0 0))))
                   (Qnat n * (y (nth (i + 1) points (mkPoint 0 0)) - y (nth i points (mkPoint 0 0)))))
        (seq 0 n) in
  evaluateBezier derivPoints u.

(** Derivative at [u] of the power-basis coefficients, highest degree
    first ([horner]'s order). *)
Fixpoint horner_deriv (coeffs : list Q) (u : Q) : Q :=
  match coeffs with
  | [] => 0
  | cf :: rest => cf * Qnat (length rest) * Math_pow u (length rest - 1) + horner_deriv rest u
  end.

End BezierCurve.

(** ** More of [matrices.ts] *)
Module MatrixOps.
Import Matrices.

(** [multiply(A, B)]: [A[0].length] and [B[0].length] throw on an empty
    matrix; entries are read as in [row_times] (the core's matrices are
    rectangular). *)
Definition multiply (A B : Matrix) : result Matrix :=
  match A with
  | [] => Err TypeError
  | rowA0 :: _ =>
      match B with
      | [] => Err TypeError
      | rowB0 :: _ =>
          let colsA := length rowA0 in
          let rowsB := length B in
          let colsB := length rowB0 in
          if negb (Nat.eqb colsA rowsB) then Err DimensionMismatch
          else Ok (map (fun rowA =>
                          map (fun j =>
                                 fold_left (fun acc k => acc + nth k rowA 0 * nth j (nth k B []) 0)
                                   (seq 0 colsA) 0)
                              (seq 0 colsB))
                       A)
      end
  end.

Definition transpose (A : Matrix) : result Matrix :=
  match A with
  | [] => Err TypeError
  | row0 :: _ => Ok (map (fun j => map (fun row => nth j row 0) A) (seq 0 (length row0)))
  end.

Definition subdivisionMatrix (n : Z) (u : Q) : result Matrix :=
  if negb (Z.eqb n 3) then Err (NotImplemented n)
  else
    let u2 := u * u in
    let u3 := u2 * u in
    let v := 1 - u in
    let v2 := v * v in
    let v3 := v2 * v in
    Ok [ [1; 0; 0; 0];
         [v; u; 0; 0];
         [v2; v * u; u2; 0];
         [v3; v2 * u; v * u2; u3] ].

Definition reparameterizationMatrix (u1 u2 : Q) : Matrix :=
  let delta := u2 - u1 in
  let delta2 := delta * delta in
  let delta3 := delta2 * delta in
  [ [1; 0; 0; 0];
    [u1; delta; 0; 0];
    [u1 * u1; 2 * u1 * delta; delta2; 0];
    [u1 * u1 * u1; 3 * u1 * u1 * delta; 3 * u1 * delta2; delta3] ].

(** [sum_{j < n} f(j)], accumulated from [0] in the loops' order. *)
Definition fsum (f : nat -> Q) (n : nat) : Q :=
  fold_left (fun acc j => acc + f j) (seq 0 n) 0.

(** Every row has [cols] entries. *)
Definition rectangular (A : Matrix) (cols : nat) : Prop :=
  forall row, In row A -> length row = cols.

End MatrixOps.

(** ** More of [bspline.ts] *)
Module BSplineCurve.
Import BSpline.

(** [startParam + (i / numPoints) * (endParam - startParam)] with
    [startParam = knots[degree]], [endParam = knots[knots.length - degree - 1]]. *)
Definition bspline_param (degree : nat) (knots : KnotVector) (i numPoints : nat) : jsnum :=
  let startParam := knot knots degree in
  let endParam := knot knots (length knots - degree - 1) in
  match sample_param i numPoints with
  | None => None
  | Some t => jadd startParam (jmul (Some t) (jsub endParam startParam))
  end.

(** [None]: a sample at a non-finite parameter, not evaluated here. *)
Definition generateBSplineCurvePoints (controlPoints : list Point) (degree : nat)
    (knots : KnotVector) (numPoints : nat) : list (option Point) :=
  map (fun i => option_map (fun u => evaluateBSpline controlPoints degree u knots)
                           (bspline_param degree knots i numPoints))
      (seq 0 (numPoints + 1)).

Definition calculateBasisFunctions (numControlPoints degree : nat) (knots : KnotVector)
    (numPoints : nat) : list (list (option jsnum)) :=
  map (fun i =>
         map (fun j => option_map (fun u => coxDeBoor i degree u knots)
                                  (bspline_param degree knots j numPoints))
             (seq 0 (numPoints + 1)))
      (seq 0 numControlPoints).

End BSplineCurve.

(** ** Callers in the Bezier editor ([BezierEditor.tsx]) *)
Module BezierEditor.
Import BezierCurve.

(** Degree change from 2 to 3: the quadratic [p0, p1, p2] becomes
    [p0, (2 p1 + p0)/3, (2 p1 + p2)/3, p2]. *)
Definition quadratic_to_cubic (p0 p1 p2 : Point) : list Point :=
  [p0;
   mkPoint ((2 * x p1 + x p0) / 3) ((2 * y p1 + y p0) / 3);
   mkPoint ((2 * x p1 + x p2) / 3) ((2 * y p1 + y p2) / 3);
   p2].

(** Intersection mode on a cubic: [PStar] is the midpoint of [p0] and [p3]. *)
Definition intersection_polygon (p0 p3 : Point) : list Point :=
  let pStar := mkPoint ((x p0 + x p3) / 2) ((y p0 + y p3) / 2) in
  let (p1, p2) := calculateIntersectionControlPoints p0 pStar p3 in
  [p0; p1; p2; p3].

(** [effectiveControlPoints[idx] = v] on an index in range. *)
Fixpoint set_nth (l : list Point) (idx : nat) (v : Point) : list Point :=
  match l, idx with
  | [], _ => []
  | _ :: rest, O => v :: rest
  | p :: rest, S idx' => p :: set_nth rest idx' v
  end.

(** Closed curve: the first point repeated at the end and, from four
    points on, the next-to-last point replaced by the reflection of
    [P1] through [P0].  (The editor's polygon is never empty.) *)
Definition closed_polygon (controlPoints : list Point) : list Point :=
  let p0 := hd (mkPoint 0 0) controlPoints in
  let eff := controlPoints ++ [p0] in
  if Nat.leb 4 (length eff) then
    let p1 := nth 1 eff (mkPoint 0 0) in
    set_nth eff (length eff - 2) (mkPoint (2 * x p0 - x p1) (2 * y p0 - y p1))
  else eff.

End BezierEditor.

(** ** The B-spline editor's knot initialisation *)
Module BSplineEditor.
Import BSpline.

(** [k = Math.min(degree, n - 1)]; [knots = generateUniformKnots(n, k)].
    The editor keeps at least two control points, so [n - 1] does not go
    below [0]. *)
Definition initial_knots (n degree : nat) : KnotVector :=
  let k := Nat.min degree (n - 1) in
  generateUniformKnots n k.

End BSplineEditor.

(** * Proofs *)

(** ** Binomial coefficients and the Bernstein recurrence *)
Module BernsteinFacts.
Import Bezier.

Lemma Qnat_S (n : nat) : Qnat (S n) == Qnat n + 1.
Proof. unfold Qnat. rewrite Nat2Z.inj_succ, <- Z.add_1_r, inject_Z_plus. reflexivity. Qed.

Lemma Qnat_nonzero (n : nat) : ~ Qnat (S n) == 0.
Proof. unfold Qnat, Qeq. simpl. lia. Qed.

Lemma binomial_loop_S (n k : nat) :
  binomial_loop n (S k)
  = binomial_loop n k * (inject_Z (Z.of_nat n + 1 - Z.of_nat (S k)) / Qnat (S k)).
Proof.
  unfold binomial_loop. rewrite seq_S, fold_left_app. simpl.
  replace (1 + k)%nat with (S k) by lia. reflexivity.
Qed.

Lemma inject_Z_sub (p q : Z) : inject_Z (p - q) == inject_Z p - inject_Z q.
Proof. unfold Z.sub, Qminus. rewrite inject_Z_plus, inject_Z_opp. reflexivity. Qed.

Lemma factor_eq (n k : nat) : inject_Z (Z.of_nat n + 1 - Z.of_nat (S k)) == Qnat n - Qnat k.
Proof.
  replace (Z.of_nat n + 1 - Z.of_nat (S k))%Z with (Z.of_nat n - Z.of_nat k)%Z by lia.
  apply inject_Z_sub.
Qed.

Lemma binomial_loop_succ (n k : nat) :
  binomial_loop (S n) (S k) == binomial_loop n k * Qnat (S n) / Qnat (S k).
Proof.
  induction k as [|k IH].
  - rewrite binomial_loop_S, factor_eq. change (binomial_loop (S n) 0) with 1.
    change (binomial_loop n 0) with 1. change (Qnat 0) with 0.
    field. apply (Qnat_nonzero 0).
  - rewrite (binomial_loop_S (S n) (S k)), IH, (binomial_loop_S n k), !factor_eq.
    setoid_replace (Qnat (S n) - Qnat (S k)) with (Qnat n - Qnat k)
      by (rewrite !Qnat_S; ring).
    field. split; apply Qnat_nonzero.
Qed.

(** Pascal's rule for the loop product, for every [k]. *)
Lemma binomial_loop_pascal (n k : nat) :
  binomial_loop (S n) (S k) == binomial_loop n (S k) + binomial_loop n k.
Proof.
  rewrite binomial_loop_succ, binomial_loop_S, factor_eq, !Qnat_S.
  field. intro H. apply (Qnat_nonzero k). rewrite Qnat_S. exact H.
Qed.

Lemma binomial_loop_diag (n : nat) : binomial_loop n n == 1.
Proof.
  induction n as [|n IH].
  - reflexivity.
  - rewrite binomial_loop_succ, IH. field. apply Qnat_nonzero.
Qed.

Lemma binomial_loop_above (n k : nat) : (n < k)%nat -> binomial_loop n k == 0.
Proof.
  induction k as [|k IH]; intro H; [lia|].
  rewrite binomial_loop_S.
  destruct (Nat.eq_dec k n) as [->|Hne].
  - rewrite factor_eq. unfold Qdiv. ring.
  - rewrite IH by lia. ring.
Qed.

Lemma binomial_eq (n k : nat) : binomial n k == binomial_loop n k.
Proof.
  unfold binomial.
  destruct (Nat.ltb_spec n k) as [H|H].
  - symmetry. apply binomial_loop_above. exact H.
  - destruct (Nat.eqb_spec k 0) as [->|H0]; [reflexivity|].
    destruct (Nat.eqb_spec k n) as [->|Hn]; simpl.
    + symmetry. apply binomial_loop_diag.
    + reflexivity.
Qed.

Lemma bernstein_eq (i n : nat) (u : Q) :
  bernstein i n u == binomial_loop n i * Math_pow (1 - u) (n - i) * Math_pow u i.
Proof.
  unfold bernstein. destruct (Nat.ltb_spec n i) as [H|H].
  - rewrite binomial_loop_above by exact H. ring.
  - rewrite binomial_eq. reflexivity.
Qed.

Lemma bernstein_above (i n : nat) (u : Q) : (n < i)%nat -> bernstein i n u == 0.
Proof. intro H. unfold bernstein. destruct (Nat.ltb_spec n i); [reflexivity|lia]. Qed.

Lemma bernstein_pascal_0 (n : nat) (u : Q) :
  bernstein 0 (S n) u == (1 - u) * bernstein 0 n u.
Proof.
  rewrite !bernstein_eq. change (binomial_loop (S n) 0) with 1.
  change (binomial_loop n 0) with 1. rewrite !Nat.sub_0_r. cbn [Math_pow]. ring.
Qed.

Lemma bernstein_pascal (k n : nat) (u : Q) :
  bernstein (S k) (S n) u == (1 - u) * bernstein (S k) n u + u * bernstein k n u.
Proof.
  rewrite !bernstein_eq, binomial_loop_pascal.
  replace (S n - S k)%nat with (n - k)%nat by lia.
  destruct (Nat.lt_trichotomy k n) as [Hlt|[->|Hgt]].
  - replace (n - k)%nat with (S (n - S k)) by lia. cbn [Math_pow]. ring.
  - rewrite (binomial_loop_above n (S n)) by lia.
    rewrite !Nat.sub_diag. cbn [Math_pow]. ring.
  - rewrite (binomial_loop_above n (S k)), (binomial_loop_above n k) by lia. ring.
Qed.

End BernsteinFacts.

(** ** De Casteljau against the Bernstein form *)
Module DeCasteljauFacts.
Import Bezier Spec BernsteinFacts.

Section Projection.

Variable proj : Point -> Q.
Variable u : Q.
Hypothesis proj_lerp : forall p q, proj (lerp u p q) == (1 - u) * proj p + u * proj q.

Lemma bsum_succ_shift (l : list Point) (n i0 : nat) :
  bsum proj l (S n) (S i0) u == (1 - u) * bsum proj l n (S i0) u + u * bsum proj l n i0 u.
Proof.
  revert i0. induction l as [|p l IH]; intro i0; simpl.
  - ring.
  - rewrite bernstein_pascal, IH. ring.
Qed.

Lemma bsum_succ (l : list Point) (n : nat) :
  bsum proj l (S n) 0 u == (1 - u) * bsum proj l n 0 u + u * bsum proj (tl l) n 0 u.
Proof.
  destruct l as [|p l]; simpl.
  - ring.
  - rewrite bernstein_pascal_0, bsum_succ_shift. ring.
Qed.

Lemma bsum_level (l : list Point) (n i0 : nat) :
  bsum proj (deCasteljau_level l u) n i0 u
  == (1 - u) * bsum proj (removelast l) n i0 u + u * bsum proj (tl l) n i0 u.
Proof.
  revert i0. induction l as [|p l IH]; intro i0.
  - simpl. ring.
  - destruct l as [|q r].
    + simpl. ring.
    + change (deCasteljau_level (p :: q :: r) u) with (lerp u p q :: deCasteljau_level (q :: r) u).
      change (removelast (p :: q :: r)) with (p :: removelast (q :: r)).
      cbn [bsum tl]. rewrite IH, proj_lerp. cbn [tl bsum]. ring.
Qed.

Lemma bsum_drop_last (l : list Point) (n i0 : nat) :
  l <> [] -> (n < i0 + length l - 1)%nat ->
  bsum proj l n i0 u == bsum proj (removelast l) n i0 u.
Proof.
  revert i0. induction l as [|p l IH]; intros i0 Hne Hlen; [congruence|].
  destruct l as [|q r].
  - simpl in *. rewrite bernstein_above by lia. ring.
  - change (removelast (p :: q :: r)) with (p :: removelast (q :: r)).
    cbn [bsum]. rewrite (IH (S i0)); [reflexivity|discriminate|simpl in *; lia].
Qed.

Lemma bsum_level_full (l : list Point) (n : nat) :
  length l = (n + 2)%nat ->
  bsum proj l (S n) 0 u == bsum proj (deCasteljau_level l u) n 0 u.
Proof.
  intro Hlen.
  rewrite bsum_succ, bsum_level, (bsum_drop_last l n 0).
  - reflexivity.
  - intros ->. simpl in Hlen. lia.
  - lia.
Qed.

End Projection.

Lemma level_length (l : list Point) (u : Q) :
  length (deCasteljau_level l u) = (length l - 1)%nat.
Proof.
  induction l as [|p l IH]; [reflexivity|].
  destruct l as [|q r]; [reflexivity|].
  change (length (lerp u p q :: deCasteljau_level (q :: r) u) = (length (p :: q :: r) - 1)%nat).
  cbn [length] in *. rewrite IH. lia.
Qed.

Lemma evaluateBezier_loop_x (pts : list Point) (i n : nat) (u ax ay : Q) :
  x (evaluateBezier_loop pts i n u ax ay) == ax + bsum x pts n i u.
Proof.
  revert i ax ay. induction pts as [|p pts IH]; intros i ax ay; simpl.
  - ring.
  - rewrite IH. ring.
Qed.

Lemma evaluateBezier_loop_y (pts : list Point) (i n : nat) (u ax ay : Q) :
  y (evaluateBezier_loop pts i n u ax ay) == ay + bsum y pts n i u.
Proof.
  revert i ax ay. induction pts as [|p pts IH]; intros i ax ay; simpl.
  - ring.
  - rewrite IH. ring.
Qed.

End DeCasteljauFacts.

Module DeCasteljauRun.
Import Bezier Spec BernsteinFacts DeCasteljauFacts.

Lemma deCasteljau_fuel_bsum (fuel : nat) (l : list Point) (u : Q) :
  l <> [] -> (length l <= fuel)%nat ->
  exists p, deCasteljau_fuel fuel l u = Some p /\
            x p == bsum x l (length l - 1) 0 u /\ y p == bsum y l (length l - 1) 0 u.
Proof.
  revert l. induction fuel as [|f IH]; intros l Hne Hlen.
  - destruct l; [congruence|simpl in Hlen; lia].
  - destruct l as [|p [|q r]]; [congruence| |].
    + exists p. simpl. rewrite bernstein_eq. change (binomial_loop 0 0) with 1. simpl.
      split; [reflexivity|split; ring].
    + change (deCasteljau_fuel (S f) (p :: q :: r) u)
        with (deCasteljau_fuel f (deCasteljau_level (p :: q :: r) u) u).
      destruct (IH (deCasteljau_level (p :: q :: r) u)) as (p' & Hrun & Hx & Hy).
      * change (deCasteljau_level (p :: q :: r) u) with (lerp u p q :: deCasteljau_level (q :: r) u).
        discriminate.
      * rewrite level_length. simpl in *. lia.
      * exists p'. split; [exact Hrun|].
        rewrite level_length in Hx, Hy.
        replace (length (p :: q :: r) - 1)%nat with (S (length r)) by (simpl; lia).
        replace (length (p :: q :: r) - 1 - 1)%nat with (length r) in Hx, Hy by (simpl; lia).
        split.
        -- rewrite Hx. symmetry. apply bsum_level_full; [reflexivity|simpl; lia].
        -- rewrite Hy. symmetry. apply bsum_level_full; [reflexivity|simpl; lia].
Qed.

Lemma deCasteljau_fuel_short (fuel : nat) (l : list Point) (u : Q) :
  (fuel < length l)%nat -> deCasteljau_fuel fuel l u = None.
Proof.
  revert l. induction fuel as [|f IH]; intros l Hlt; [reflexivity|].
  destruct l as [|p [|q r]]; simpl in Hlt; [lia|lia|].
  change (deCasteljau_fuel (S f) (p :: q :: r) u)
    with (deCasteljau_fuel f (deCasteljau_level (p :: q :: r) u) u).
  apply IH. rewrite level_length. simpl. lia.
Qed.

Lemma deCasteljau_fuel_mono (f f' : nat) (l : list Point) (u : Q) (p : Point) :
  deCasteljau_fuel f l u = Some p -> (f <= f')%nat -> deCasteljau_fuel f' l u = Some p.
Proof.
  revert f' l. induction f as [|f IH]; intros f' l Hrun Hle; [discriminate|].
  destruct f' as [|f']; [lia|].
  destruct l as [|a [|b r]]; simpl in *.
  - apply IH; [exact Hrun|lia].
  - exact Hrun.
  - apply IH; [exact Hrun|lia].
Qed.

Lemma deCasteljau_fuel_nil (fuel : nat) (u : Q) : deCasteljau_fuel fuel [] u = None.
Proof. induction fuel as [|f IH]; [reflexivity|exact IH]. Qed.

End DeCasteljauRun.

(** ** B-spline facts *)
Module BSplineFacts.
Import BSpline.

Lemma fold_push_map {A B : Type} (f : A -> B) (l : list A) (acc : list B) :
  fold_left (fun acc i => acc ++ [f i]) l acc = acc ++ map f l.
Proof.
  revert acc. induction l as [|i l IH]; intro acc; simpl.
  - rewrite app_nil_r. reflexivity.
  - rewrite IH, <- app_assoc. reflexivity.
Qed.

Lemma fold_push_const {A B : Type} (v : B) (l : list A) (acc : list B) :
  fold_left (fun acc _ => acc ++ [v]) l acc = acc ++ repeat v (length l).
Proof. rewrite <- map_const. exact (fold_push_map (fun _ => v) l acc). Qed.

Lemma firstn_length_pred {A : Type} (l : list A) : firstn (length l - 1) l = removelast l.
Proof. rewrite removelast_firstn_len, Nat.sub_1_r. reflexivity. Qed.

Lemma slice_1_m1_spec (knots : KnotVector) : slice_1_m1 knots = removelast (tl knots).
Proof.
  unfold slice_1_m1. rewrite firstn_length_pred.
  destruct knots as [|a [|b r]]; reflexivity.
Qed.

Lemma slice_1_m1_length (knots : KnotVector) :
  length (slice_1_m1 knots) = (length knots - 2)%nat.
Proof.
  rewrite slice_1_m1_spec, removelast_firstn_len, length_firstn.
  destruct knots as [|a l]; simpl; lia.
Qed.

Lemma knot_in_range (knots : KnotVector) (j : nat) :
  (j < length knots)%nat -> knot knots j = Some (nth j knots 0).
Proof. intro H. unfold knot. apply nth_error_nth'. exact H. Qed.

Lemma coxDeBoor_finite (k i : nat) (u : Q) (knots : KnotVector) :
  (i + k + 1 < length knots)%nat -> exists v, coxDeBoor i k u knots = Some v.
Proof.
  revert i. induction k as [|k IH]; intros i Hlen.
  - simpl. destruct (_ || _); eauto.
  - cbn [coxDeBoor].
    rewrite !knot_in_range by lia.
    destruct (IH i) as [v1 ->]; [lia|].
    destruct (IH (i + 1)%nat) as [v2 ->]; [lia|].
    set (d1 := nth (i + S k) knots 0 - nth i knots 0).
    set (d2 := nth (i + S k + 1) knots 0 - nth (i + 1) knots 0).
    unfold jneq0, jdiv, jsub, jmul, jadd.
    fold d1 d2.
    destruct (Qeq_bool d1 0), (Qeq_bool d2 0); simpl; eauto.
Qed.

Lemma eval_loop_acc_None (cps : list Point) (i degree : nat) (u : Q) (knots : KnotVector)
    (ax ay : jsnum) :
  (ax = None -> x (evaluateBSpline_loop cps i degree u knots ax ay) = None) /\
  (ay = None -> y (evaluateBSpline_loop cps i degree u knots ax ay) = None).
Proof.
  revert i ax ay. induction cps as [|p cps IH]; intros i ax ay; simpl.
  - split; intro H; exact H.
  - split; intro H; subst; apply IH; reflexivity.
Qed.

Lemma eval_loop_point_None (cps : list Point) (i degree : nat) (u : Q) (knots : KnotVector)
    (ax ay : jsnum) :
  (forall p, In p cps -> x p = None -> x (evaluateBSpline_loop cps i degree u knots ax ay) = None) /\
  (forall p, In p cps -> y p = None -> y (evaluateBSpline_loop cps i degree u knots ax ay) = None).
Proof.
  revert i ax ay. induction cps as [|p cps IH]; intros i ax ay; split; intros q Hin Hq.
  - destruct Hin.
  - destruct Hin.
  - destruct Hin as [<-|Hin]; simpl.
    + apply eval_loop_acc_None. rewrite Hq. destruct ax; reflexivity.
    + apply (proj1 (IH _ _ _) q Hin Hq).
  - destruct Hin as [<-|Hin]; simpl.
    + apply eval_loop_acc_None. rewrite Hq. destruct ay; reflexivity.
    + apply (proj2 (IH _ _ _) q Hin Hq).
Qed.

Lemma eval_loop_finite (cps : list Point) (i degree : nat) (u : Q) (knots : KnotVector)
    (ax ay : Q) :
  (forall p, In p cps -> Spec.finite_point p) ->
  (forall j, (i <= j < i + length cps)%nat -> exists v, coxDeBoor j degree u knots = Some v) ->
  Spec.finite_point (evaluateBSpline_loop cps i degree u knots (Some ax) (Some ay)).
Proof.
  revert i ax ay. induction cps as [|p cps IH]; intros i ax ay Hpts Hbasis; simpl.
  - exists ax, ay. split; reflexivity.
  - destruct (Hpts p (or_introl eq_refl)) as (px & py & Hx & Hy).
    destruct (Hbasis i) as [v Hv]; [simpl; lia|].
    rewrite Hx, Hy, Hv. simpl.
    apply IH.
    + intros q Hq. apply Hpts. right. exact Hq.
    + intros j Hj. apply Hbasis. simpl. lia.
Qed.

Lemma derivCtrlPts_map (controlPoints : list Point) (degree : nat) (knots : KnotVector) :
  derivCtrlPts controlPoints degree knots
  = map (deriv_point controlPoints degree knots) (seq 0 (length controlPoints - 1)).
Proof. unfold derivCtrlPts. rewrite fold_push_map. reflexivity. Qed.

Lemma derivCtrlPts_length (controlPoints : list Point) (degree : nat) (knots : KnotVector) :
  length (derivCtrlPts controlPoints degree knots) = (length controlPoints - 1)%nat.
Proof. rewrite derivCtrlPts_map, length_map, length_seq. reflexivity. Qed.

Lemma nondec_app (l1 l2 : list Q) :
  Spec.nondecreasing l1 -> Spec.nondecreasing l2 ->
  (l1 <> [] -> l2 <> [] -> nth (length l1 - 1) l1 0 <= nth 0 l2 0) ->
  Spec.nondecreasing (l1 ++ l2).
Proof.
  intros H1 H2 Hb i Hi. rewrite length_app in Hi.
  destruct (Nat.lt_ge_cases (S i) (length l1)) as [Hlt|Hge].
  - rewrite !app_nth1 by lia. apply H1. exact Hlt.
  - destruct (Nat.eq_dec (S i) (length l1)) as [Heq|Hne].
    + rewrite app_nth1 by lia. rewrite app_nth2 by lia.
      replace (S i - length l1)%nat with 0%nat by lia.
      replace i with (length l1 - 1)%nat by lia.
      apply Hb.
      * intros ->. simpl in Heq. lia.
      * intros ->. simpl in Hi. lia.
    + rewrite !app_nth2 by lia.
      replace (S i - length l1)%nat with (S (i - length l1)) by lia.
      apply H2. lia.
Qed.

Lemma nondec_repeat (v : Q) (m : nat) : Spec.nondecreasing (repeat v m).
Proof.
  intros i Hi. rewrite repeat_length in Hi.
  rewrite !nth_repeat_lt by lia. apply Qle_refl.
Qed.

Lemma nth_map_seq (f : nat -> Q) (start m j : nat) :
  (j < m)%nat -> nth j (map f (seq start m)) 0 = f (start + j)%nat.
Proof.
  intro Hj. rewrite (nth_indep _ 0 (f 0%nat)) by (rewrite length_map, length_seq; lia).
  rewrite map_nth, seq_nth by lia. reflexivity.
Qed.

Lemma nondec_map_seq (f : nat -> Q) (start m : nat) :
  (forall j, f j <= f (S j)) -> Spec.nondecreasing (map f (seq start m)).
Proof.
  intros Hf i Hi. rewrite length_map, length_seq in Hi.
  rewrite !nth_map_seq by lia.
  replace (start + S i)%nat with (S (start + i)) by lia. apply Hf.
Qed.

Lemma generateUniformKnots_eq (n k : nat) :
  generateUniformKnots n k
  = repeat 0 (k + 1)
    ++ map (fun i => inject_Z (Z.of_nat i) / inject_Z (Z.of_nat n - Z.of_nat k)) (seq 1 (n - k - 1))
    ++ repeat 1 (k + 1).
Proof.
  unfold generateUniformKnots.
  rewrite (fold_push_const (A:=nat) (1:Q)), (fold_push_const (A:=nat) (0:Q)).
  rewrite fold_push_map, !length_seq. simpl. rewrite app_assoc. reflexivity.
Qed.

Lemma validateKnots_true (knots : KnotVector) (n k : nat) :
  length knots = (n + k + 1)%nat -> Spec.nondecreasing knots -> validateKnots knots n k = true.
Proof.
  intros Hlen Hnd. unfold validateKnots.
  rewrite Hlen, Nat.eqb_refl. simpl.
  apply forallb_forall. intros i Hi. apply in_seq in Hi.
  rewrite !knot_in_range by lia.
  unfold jgt, jlt. rewrite negb_involutive.
  apply Qle_bool_iff. replace (i + 1)%nat with (S i) by lia. apply Hnd. lia.
Qed.

Section UniformKnots.

Variables n k : nat.
Hypothesis Hnk : (k + 1 <= n)%nat.

Let den : Q := inject_Z (Z.of_nat n - Z.of_nat k).
Let interior (i : nat) : Q := inject_Z (Z.of_nat i) / den.

Lemma den_pos : 0 < den.
Proof. unfold den, Qlt. simpl. lia. Qed.

Lemma interior_mono (j : nat) : interior j <= interior (S j).
Proof.
  unfold interior, Qdiv. apply Qmult_le_compat_r.
  - rewrite <- Zle_Qle. lia.
  - apply Qinv_le_0_compat. apply Qlt_le_weak. exact den_pos.
Qed.

Lemma interior_nonneg (j : nat) : 0 <= interior j.
Proof.
  unfold interior. apply Qle_shift_div_l; [exact den_pos|].
  rewrite Qmult_0_l. unfold Qle. simpl. lia.
Qed.

Lemma interior_le_1 (j : nat) : (j <= n - k)%nat -> interior j <= 1.
Proof.
  intro Hj. unfold interior. apply Qle_shift_div_r; [exact den_pos|].
  rewrite Qmult_1_l. unfold den. rewrite <- Zle_Qle. lia.
Qed.

Lemma generateUniformKnots_nondecreasing : Spec.nondecreasing (generateUniformKnots n k).
Proof.
  rewrite generateUniformKnots_eq. fold den.
  change (fun i : nat => inject_Z (Z.of_nat i) / den) with interior.
  apply nondec_app; [apply nondec_repeat| |].
  - apply nondec_app; [apply nondec_map_seq, interior_mono|apply nondec_repeat|].
    intros Hne _. rewrite length_map, length_seq.
    rewrite nth_map_seq.
    + rewrite nth_repeat_lt by lia. apply interior_le_1. lia.
    + destruct (n - k - 1)%nat; [simpl in Hne; congruence|lia].
  - intros _ _. rewrite repeat_length, nth_repeat_lt by lia.
    destruct (n - k - 1)%nat as [|m].
    + simpl. rewrite nth_repeat_lt by lia. discriminate.
    + rewrite app_nth1 by (rewrite length_map, length_seq; lia).
      rewrite nth_map_seq by lia. apply interior_nonneg.
Qed.

Lemma generateUniformKnots_length : length (generateUniformKnots n k) = (n + k + 1)%nat.
Proof.
  rewrite generateUniformKnots_eq, !length_app, length_map, length_seq, !repeat_length. lia.
Qed.

End UniformKnots.

Lemma deriv_point_finite (cps : list Point) (degree : nat) (knots : KnotVector) (i : nat) :
  (forall p, In p cps -> Spec.finite_point p) ->
  (i < length cps - 1)%nat ->
  (length cps + degree + 1 <= length knots)%nat ->
  nth (i + 1) knots 0 < nth (i + degree + 1) knots 0 ->
  Spec.finite_point (deriv_point cps degree knots i).
Proof.
  intros Hpts Hi Hlen Hlt.
  assert (Hi0 : (i < length cps)%nat) by lia.
  assert (Hi1 : (i + 1 < length cps)%nat) by lia.
  destruct (Hpts (nth i cps zero_point) (nth_In _ _ Hi0)) as (ax & ay & Hax & Hay).
  destruct (Hpts (nth (i + 1) cps zero_point) (nth_In _ _ Hi1)) as (bx & by_ & Hbx & Hby).
  unfold deriv_point. cbv zeta. rewrite !knot_in_range by lia.
  rewrite Hax, Hay, Hbx, Hby.
  unfold jdiv, jsub, jmul.
  destruct (Qeq_bool (nth (i + degree + 1) knots 0 - nth (i + 1) knots 0) 0) eqn:E.
  - apply Qeq_bool_eq in E. exfalso. lra.
  - eexists _, _. split; reflexivity.
Qed.

Lemma deriv_point_zero (cps : list Point) (degree : nat) (knots : KnotVector) (i : nat) :
  (i + degree + 1 < length knots)%nat ->
  nth (i + 1) knots 0 == nth (i + degree + 1) knots 0 ->
  x (deriv_point cps degree knots i) = None /\ y (deriv_point cps degree knots i) = None.
Proof.
  intros Hlen Heq.
  unfold deriv_point. cbv zeta. rewrite !knot_in_range by lia.
  unfold jdiv, jsub.
  destruct (Qeq_bool (nth (i + degree + 1) knots 0 - nth (i + 1) knots 0) 0) eqn:E.
  - split; reflexivity.
  - apply Qeq_bool_neq in E. exfalso. apply E. rewrite Heq. ring.
Qed.

Lemma nondecreasing_le (knots : list Q) (j m : nat) :
  Spec.nondecreasing knots -> (j + m < length knots)%nat ->
  nth j knots 0 <= nth (j + m) knots 0.
Proof.
  intro Hnd. induction m as [|m IH]; intro Hlen.
  - rewrite Nat.add_0_r. apply Qle_refl.
  - apply (Qle_trans _ (nth (j + m) knots 0)); [apply IH; lia|].
    replace (j + S m)%nat with (S (j + m)) by lia. apply Hnd. lia.
Qed.

Lemma exists_first_failure (P : nat -> Prop) (m : nat) :
  (forall i, P i \/ ~ P i) -> ~ (forall i, (i < m)%nat -> P i) ->
  exists i, (i < m)%nat /\ ~ P i.
Proof.
  intros Hdec. induction m as [|m IH]; intro Hnot.
  - exfalso. apply Hnot. intros i Hi. lia.
  - destruct (Hdec m) as [Hm|Hm].
    + destruct IH as (i & Hi & HPi).
      * intro Hall. apply Hnot. intros i Hi.
        destruct (Nat.eq_dec i m) as [->|Hne]; [exact Hm|apply Hall; lia].
      * exists i. split; [lia|exact HPi].
    + exists m. split; [lia|exact Hm].
Qed.

End BSplineFacts.

(** * Claims *)

Ltac eval_binomials :=
  repeat match goal with
  | |- context [Bezier.binomial_loop ?n ?k] =>
      let v := eval vm_compute in (Bezier.binomial_loop n k) in
      setoid_replace (Bezier.binomial_loop n k) with v by reflexivity
  end.

Module HermiteClaims.
Import Hermite.

(** C4: for every Hermite form, [hermiteToPolynomial] succeeds and
    [polynomialToHermite] applied to the two cubics it returns gives back
    the form: same P0, P1, T0 and T1. *)
Theorem hermite_round_trip (form : HermiteForm) :
  exists px py, hermiteToPolynomial form = Ok (px, py) /\
                hermite_eq (polynomialToHermite px py) form.
Proof.
  destruct form as [[p0x p0y] [p1x p1y] [t0x t0y] [t1x t1y]].
  eexists _, _. split; [reflexivity|].
  unfold hermite_eq, point_eq, Matrices.row_times. simpl. repeat split; ring.
Qed.

End HermiteClaims.

Module BezierClaims.
Import Bezier BezierTrim Matrices Spec BernsteinFacts DeCasteljauFacts DeCasteljauRun.

(** C7: [bezierToPowerMatrix n] throws [NotImplemented] for every degree
    [n] other than 2 and 3, and so does [bezierToPolynomial] on a control
    polygon with other than 3 or 4 points; for 2 and 3 it returns the
    exact conversion matrices: on 3 or 4 control points
    [bezierToPolynomial] succeeds and its coefficients, read as a
    polynomial, give [evaluateBezier] at every [u]. *)
Theorem bezierToPowerMatrix_degrees :
  (forall n : Z, n <> 2%Z -> n <> 3%Z -> bezierToPowerMatrix n = Err (NotImplemented n)) /\
  (forall points : list Point, length points <> 3%nat -> length points <> 4%nat ->
     bezierToPolynomial points = Err (NotImplemented (Z.of_nat (length points) - 1))) /\
  bezierToPowerMatrix 2 = Ok [[1; -2; 1]; [-2; 2; 0]; [1; 0; 0]] /\
  bezierToPowerMatrix 3 = Ok [[-1; 3; -3; 1]; [3; -6; 3; 0]; [-3; 3; 0; 0]; [1; 0; 0; 0]] /\
  (forall points : list Point, (length points = 3 \/ length points = 4)%nat ->
     exists px py, bezierToPolynomial points = Ok (px, py) /\
       forall u, horner px u 0 == x (evaluateBezier points u) /\
                 horner py u 0 == y (evaluateBezier points u)).
Proof.
  split; [|split; [|split; [reflexivity|split; [reflexivity|]]]].
  - intros n H2 H3. unfold bezierToPowerMatrix.
    destruct (Z.eqb_spec n 2); [contradiction|].
    destruct (Z.eqb_spec n 3); [contradiction|reflexivity].
  - intros points H3 H4. unfold bezierToPolynomial, bezierToPowerMatrix.
    destruct (Z.eqb_spec (Z.of_nat (length points) - 1) 2); [lia|].
    destruct (Z.eqb_spec (Z.of_nat (length points) - 1) 3); [lia|reflexivity].
  - intros points [Hl|Hl].
    + destruct points as [|[x0 y0] [|[x1 y1] [|[x2 y2] [|]]]]; try discriminate.
      eexists _, _. split; [reflexivity|]. intro u.
      unfold evaluateBezier, row_times. cbn [evaluateBezier_loop length horner x y seq fold_left nth map].
      rewrite !bernstein_eq. cbn [Math_pow Nat.sub]. eval_binomials.
      split; ring.
    + destruct points as [|[x0 y0] [|[x1 y1] [|[x2 y2] [|[x3 y3] [|]]]]]; try discriminate.
      eexists _, _. split; [reflexivity|]. intro u.
      unfold evaluateBezier, row_times. cbn [evaluateBezier_loop length horner x y seq fold_left nth map].
      rewrite !bernstein_eq. cbn [Math_pow Nat.sub]. eval_binomials.
      split; ring.
Qed.

Lemma bezierToPowerMatrix_degrees_witness :
  (5 <> 2 /\ 5 <> 3)%Z /\ bezierToPowerMatrix 5 = Err (NotImplemented 5).
Proof.
  split; [lia|].
  exact (proj1 bezierToPowerMatrix_degrees 5%Z ltac:(lia) ltac:(lia)).
Defined.

(** C3: on every non-empty control polygon and for every [u] (in
    particular every [u] in [0,1]), the recursive de Casteljau evaluation
    returns a point equal to the Bernstein-form [evaluateBezier]. *)
Theorem deCasteljau_equals_evaluateBezier (points : list Point) (u : Q) :
  points <> [] ->
  exists p, deCasteljau points u = Some p /\ point_eq p (evaluateBezier points u).
Proof.
  intro Hne.
  destruct (deCasteljau_fuel_bsum (length points) points u Hne (le_n _)) as (p & Hrun & Hx & Hy).
  exists p. split; [exact Hrun|].
  unfold point_eq, evaluateBezier.
  rewrite evaluateBezier_loop_x, evaluateBezier_loop_y, Hx, Hy.
  split; ring.
Qed.

Lemma deCasteljau_equals_evaluateBezier_witness :
  [mkPoint 0 0; mkPoint 1 2; mkPoint 3 3; mkPoint 4 0] <> [] /\
  exists p, deCasteljau [mkPoint 0 0; mkPoint 1 2; mkPoint 3 3; mkPoint 4 0] (1 # 4) = Some p /\
            point_eq p (evaluateBezier [mkPoint 0 0; mkPoint 1 2; mkPoint 3 3; mkPoint 4 0] (1 # 4)).
Proof.
  split; [discriminate|].
  apply deCasteljau_equals_evaluateBezier. discriminate.
Defined.

(** C10: on a non-empty control polygon the de Casteljau recursion
    returns: each level is exactly one point shorter, the call on
    [length points] points returns after [length points - 1] recursive
    calls (it returns with any fuel of at least [length points] steps and
    with none below), always with the same point; from the empty list the
    single-point base case is never reached, whatever the fuel. *)
Theorem deCasteljau_terminates (points : list Point) (u : Q) :
  points <> [] ->
  (exists p, forall fuel, (length points <= fuel)%nat -> deCasteljau_fuel fuel points u = Some p) /\
  (forall fuel, (fuel < length points)%nat -> deCasteljau_fuel fuel points u = None) /\
  length (deCasteljau_level points u) = (length points - 1)%nat /\
  (forall fuel, deCasteljau_fuel fuel [] u = None).
Proof.
  intro Hne. split; [|split; [|split]].
  - destruct (deCasteljau_fuel_bsum (length points) points u Hne (le_n _)) as (p & Hrun & _).
    exists p. intros fuel Hfuel. exact (deCasteljau_fuel_mono _ _ _ _ _ Hrun Hfuel).
  - intros fuel Hfuel. apply deCasteljau_fuel_short. exact Hfuel.
  - apply level_length.
  - intro fuel. apply deCasteljau_fuel_nil.
Qed.

Lemma deCasteljau_terminates_witness :
  [mkPoint 0 0; mkPoint 1 2; mkPoint 3 3] <> [] /\
  length (deCasteljau_level [mkPoint 0 0; mkPoint 1 2; mkPoint 3 3] (1 # 2)) = 2%nat.
Proof.
  split; [discriminate|].
  exact (proj1 (proj2 (proj2 (deCasteljau_terminates [mkPoint 0 0; mkPoint 1 2; mkPoint 3 3]
                                (1 # 2) ltac:(discriminate))))).
Defined.

(** C2 (code_bug): on the spec's example the trimmed polygon does not
    reproduce the original curve: at [v = 0] it gives [x = 33/16], the
    original curve at [u = 0.25] has [x = 29/32]; at [v = 1] it gives
    [x = 95/32] against [x = 99/32] at [u = 0.75]. *)
Theorem trimmed_curve_endpoints_differ :
  x (evaluateBezier (getTrimmedControlPoints example_points example_range) 0) == 33 # 16 /\
  x (evaluateBezier example_points (1 # 4)) == 29 # 32 /\
  ~ point_eq (evaluateBezier (getTrimmedControlPoints example_points example_range) 0)
             (evaluateBezier example_points (1 # 4)) /\
  x (evaluateBezier (getTrimmedControlPoints example_points example_range) 1) == 95 # 32 /\
  x (evaluateBezier example_points (3 # 4)) == 99 # 32 /\
  ~ point_eq (evaluateBezier (getTrimmedControlPoints example_points example_range) 1)
             (evaluateBezier example_points (3 # 4)).
Proof.
  split; [vm_compute; reflexivity|].
  split; [vm_compute; reflexivity|].
  split; [intros [Hx _]; vm_compute in Hx; discriminate|].
  split; [vm_compute; reflexivity|].
  split; [vm_compute; reflexivity|].
  intros [Hx _]; vm_compute in Hx; discriminate.
Qed.

End BezierClaims.

Module BSplineClaims.
Import BSpline BSplineFacts.

(** C1 (code_bug): the basis functions do not sum to one at the final knot.
    On the clamped knot vector [[0;0;1;1]] of degree 1 with two control
    points, which [validateKnots] accepts, the basis values at [u = 1]
    (the end of the valid domain [[knots[1], knots[2]]]) sum to [0], not
    [1]: the right-endpoint rule of the base case compares [i] with
    [length - k - 2] where [k] is the recursion's degree [0], so it selects
    [N_{2,0}], whose parents are cancelled by zero-length spans.  The curve
    point at [u = 1] is [(0,0)] instead of the last control point [(1,1)].
    The same happens for the clamped cubic [generateUniformKnots 4 3]. *)
Theorem coxDeBoor_final_knot_sum_zero :
  validateKnots [0; 0; 1; 1] 2 1 = true /\
  nth 1 [0; 0; 1; 1] 0 <= 1 <= nth 2 [0; 0; 1; 1] 0 /\
  Spec.sum_basis 2 1 1 [0; 0; 1; 1] = Some 0 /\
  coxDeBoor 0 1 1 [0; 0; 1; 1] = Some 0 /\
  coxDeBoor 1 1 1 [0; 0; 1; 1] = Some 0 /\
  evaluateBSpline [mkPoint (Some 0) (Some 0); mkPoint (Some 1) (Some 1)] 1 1 [0; 0; 1; 1]
    = mkPoint (Some 0) (Some 0) /\
  validateKnots (generateUniformKnots 4 3) 4 3 = true /\
  Spec.sum_basis 4 3 1 (generateUniformKnots 4 3) = Some 0.
Proof.
  split; [vm_compute; reflexivity|].
  split; [split; vm_compute; discriminate|].
  repeat split; vm_compute; reflexivity.
Qed.

(** C5: for degree [>= 1], [bsplineDerivative] evaluates the degree
    [degree - 1] B-spline over the control points
    [D_i = degree / (knots[i+degree+1] - knots[i+1]) * (P[i+1] - P[i])],
    [i = 0 .. n-1], and the knot vector without its first and last knot;
    for degree [0] it returns [(0,0)] whatever the other arguments. *)
Theorem bsplineDerivative_refines_spec (controlPoints : list Point) (degree : nat) (u : Q)
    (knots : KnotVector) :
  bsplineDerivative controlPoints degree u knots
    = Spec.derivative_spec controlPoints degree u knots /\
  bsplineDerivative controlPoints 0 u knots = mkPoint (Some 0) (Some 0).
Proof.
  split; [|reflexivity].
  destruct degree as [|d]; [reflexivity|].
  unfold bsplineDerivative, Spec.derivative_spec.
  cbn [Nat.leb]. rewrite derivCtrlPts_map, slice_1_m1_spec.
  replace (S d - 1)%nat with d by lia.
  reflexivity.
Qed.

(** C6, counterexample: for [n = k = 1] (fewer control points than
    [k + 1]) the vector has length [4], not [n + k + 1 = 3], and
    [validateKnots] rejects it. *)
Lemma generateUniformKnots_length_counterexample :
  length (generateUniformKnots 1 1) <> 3%nat /\
  validateKnots (generateUniformKnots 1 1) 1 1 = false.
Proof. split; [vm_compute; discriminate|vm_compute; reflexivity]. Qed.

(** C6 (amended): when [n >= k + 1], [generateUniformKnots n k] is [k+1]
    zeros, the interior knots [i/(n-k)] for [i = 1 .. n-k-1] and [k+1]
    ones; it has length [n+k+1], is non-decreasing, and [validateKnots]
    accepts it. When [n < k + 1] the interior loop does not run: the
    vector is [k+1] zeros followed by [k+1] ones, of length [2k+2] instead
    of [n+k+1], and [validateKnots] rejects it. *)
Theorem generateUniformKnots_clamped (n k : nat) :
  ((k + 1 <= n)%nat ->
   generateUniformKnots n k
     = repeat 0 (k + 1) ++ map (fun i => Qnat i / Qnat (n - k)) (seq 1 (n - k - 1))
       ++ repeat 1 (k + 1) /\
   length (generateUniformKnots n k) = (n + k + 1)%nat /\
   Spec.nondecreasing (generateUniformKnots n k) /\
   validateKnots (generateUniformKnots n k) n k = true) /\
  ((n < k + 1)%nat ->
   generateUniformKnots n k = repeat 0 (k + 1) ++ repeat 1 (k + 1) /\
   length (generateUniformKnots n k) = (2 * k + 2)%nat /\
   validateKnots (generateUniformKnots n k) n k = false).
Proof.
  split.
  - intro Hnk.
    split; [|split; [|split]].
    + rewrite generateUniformKnots_eq. unfold Qnat.
      rewrite Nat2Z.inj_sub by lia. reflexivity.
    + apply generateUniformKnots_length. exact Hnk.
    + apply generateUniformKnots_nondecreasing. exact Hnk.
    + apply validateKnots_true.
      * apply generateUniformKnots_length. exact Hnk.
      * apply generateUniformKnots_nondecreasing. exact Hnk.
  - intro Hnk.
    assert (Heq : generateUniformKnots n k = repeat 0 (k + 1) ++ repeat 1 (k + 1)).
    { rewrite generateUniformKnots_eq.
      replace (n - k - 1)%nat with 0%nat by lia. reflexivity. }
    assert (Hlen : length (generateUniformKnots n k) = (2 * k + 2)%nat)
      by (rewrite Heq, length_app, !repeat_length; lia).
    split; [exact Heq|]. split; [exact Hlen|].
    unfold validateKnots. rewrite Hlen.
    destruct (Nat.eqb_spec (2 * k + 2) (n + k + 1)); [lia|reflexivity].
Qed.

Lemma generateUniformKnots_clamped_witness :
  (3 + 1 <= 5)%nat /\
  length (generateUniformKnots 5 3) = 9%nat /\
  validateKnots (generateUniformKnots 5 3) 5 3 = true /\
  (3 < 3 + 1)%nat /\
  length (generateUniformKnots 3 3) = 8%nat /\
  validateKnots (generateUniformKnots 3 3) 3 3 = false.
Proof.
  split; [lia|].
  destruct (proj1 (generateUniformKnots_clamped 5 3) ltac:(lia)) as (_ & Hlen & _ & Hval).
  split; [exact Hlen|]. split; [exact Hval|].
  split; [lia|].
  destruct (proj2 (generateUniformKnots_clamped 3 3) ltac:(lia)) as (_ & Hlen' & Hval').
  split; [exact Hlen'|exact Hval'].
Defined.

(** C8: every index with [i + k + 1 < length knots] gives a finite basis
    value, whatever [u] and the knots. In the recursive case each term is
    treated on its own: a term whose denominator is zero contributes [0]
    and is never divided (a division by zero would give a non-finite
    value, and the result is finite), so the value is the sum of the
    terms whose denominator is non-zero: [0] when both denominators are
    zero, the second term alone when only the first is zero, the first
    term alone when only the second is zero, and both terms otherwise. *)
Theorem coxDeBoor_total (i k : nat) (u : Q) (knots : KnotVector) :
  (i + k + 1 < length knots)%nat ->
  (exists v, coxDeBoor i k u knots = Some v) /\
  (forall k' n1 n2, k = S k' ->
     coxDeBoor i k' u knots = Some n1 -> coxDeBoor (i + 1) k' u knots = Some n2 ->
     let d1 := nth (i + k) knots 0 - nth i knots 0 in
     let d2 := nth (i + k + 1) knots 0 - nth (i + 1) knots 0 in
     let term1 := (u - nth i knots 0) / d1 * n1 in
     let term2 := (nth (i + k + 1) knots 0 - u) / d2 * n2 in
     exists v, coxDeBoor i k u knots = Some v /\
       (d1 == 0 -> d2 == 0 -> v == 0) /\
       (d1 == 0 -> ~ d2 == 0 -> v == term2) /\
       (~ d1 == 0 -> d2 == 0 -> v == term1) /\
       (~ d1 == 0 -> ~ d2 == 0 -> v == term1 + term2)).
Proof.
  intro Hlen. split; [apply coxDeBoor_finite; exact Hlen|].
  intros k' n1 n2 -> H1 H2. cbv zeta.
  cbn [coxDeBoor]. cbv zeta.
  rewrite !knot_in_range by lia. rewrite H1, H2.
  unfold jneq0, jdiv, jsub, jmul, jadd.
  destruct (Qeq_bool (nth (i + S k') knots 0 - nth i knots 0) 0) eqn:E1;
    [apply Qeq_bool_eq in E1|apply Qeq_bool_neq in E1];
  destruct (Qeq_bool (nth (i + S k' + 1) knots 0 - nth (i + 1) knots 0) 0) eqn:E2;
    [apply Qeq_bool_eq in E2|apply Qeq_bool_neq in E2|apply Qeq_bool_eq in E2|apply Qeq_bool_neq in E2];
  cbn [negb]; eexists; (split; [reflexivity|]);
  repeat split; intros Ha Hb; first [contradiction | ring].
Qed.

Lemma coxDeBoor_total_witness :
  exists v, coxDeBoor 1 1 (1 # 2) [0; 0; 0; 1] = Some v /\ v == 1 # 2.
Proof.
  destruct (proj2 (coxDeBoor_total 1 1 (1 # 2) [0; 0; 0; 1] ltac:(simpl; lia)) 0%nat 0 1 eq_refl
              ltac:(vm_compute; reflexivity) ltac:(vm_compute; reflexivity))
    as (v & Hv & _ & Hsingle & _ & _).
  exists v. split; [exact Hv|].
  rewrite Hsingle; [vm_compute; reflexivity|vm_compute; reflexivity|vm_compute; discriminate].
Defined.

(** C9: with degree [>= 1], enough knots ([length cps + degree + 1]) and
    finite control points, the derivative is finite when
    [knots[i+1] < knots[i+degree+1]] for every [i < n]; on a
    non-decreasing knot vector that violates this precondition, some
    factor divides by zero and both coordinates of the result are
    non-finite. *)
Theorem bsplineDerivative_division_guard (cps : list Point) (degree : nat) (u : Q)
    (knots : KnotVector) :
  (1 <= degree)%nat ->
  (length cps + degree + 1 <= length knots)%nat ->
  (forall p, In p cps -> Spec.finite_point p) ->
  ((forall i, (i < length cps - 1)%nat -> nth (i + 1) knots 0 < nth (i + degree + 1) knots 0) ->
   Spec.finite_point (bsplineDerivative cps degree u knots)) /\
  (Spec.nondecreasing knots ->
   ~ (forall i, (i < length cps - 1)%nat -> nth (i + 1) knots 0 < nth (i + degree + 1) knots 0) ->
   x (bsplineDerivative cps degree u knots) = None /\
   y (bsplineDerivative cps degree u knots) = None).
Proof.
  intros Hdeg Hlen Hpts.
  unfold bsplineDerivative.
  replace (Nat.leb 1 degree) with true by (symmetry; apply Nat.leb_le; exact Hdeg).
  unfold evaluateBSpline. split.
  - intro Hpre. apply eval_loop_finite.
    + intros p Hp. rewrite derivCtrlPts_map in Hp.
      apply in_map_iff in Hp. destruct Hp as (i & <- & Hi). apply in_seq in Hi.
      apply deriv_point_finite; [exact Hpts|lia|exact Hlen|apply Hpre; lia].
    + intros j Hj. rewrite derivCtrlPts_length in Hj.
      apply coxDeBoor_finite. rewrite slice_1_m1_length. lia.
  - intros Hnd Hnot.
    destruct (exists_first_failure
                (fun i => nth (i + 1) knots 0 < nth (i + degree + 1) knots 0)
                (length cps - 1)) as (i & Hi & Hfail).
    + intro i. destruct (Qlt_le_dec (nth (i + 1) knots 0) (nth (i + degree + 1) knots 0)) as [H|H].
      * left. exact H.
      * right. apply Qle_not_lt. exact H.
    + exact Hnot.
    + assert (Heq : nth (i + 1) knots 0 == nth (i + degree + 1) knots 0).
      { apply Qle_antisym.
        - replace (i + degree + 1)%nat with (i + 1 + degree)%nat by lia.
          apply nondecreasing_le; [exact Hnd|lia].
        - apply Qnot_lt_le. exact Hfail. }
      destruct (deriv_point_zero cps degree knots i ltac:(lia) Heq) as [Hx Hy].
      assert (Hin : In (deriv_point cps degree knots i) (derivCtrlPts cps degree knots)).
      { rewrite derivCtrlPts_map. apply in_map. apply in_seq. lia. }
      split.
      * exact (proj1 (eval_loop_point_None _ _ _ _ _ _ _) _ Hin Hx).
      * exact (proj2 (eval_loop_point_None _ _ _ _ _ _ _) _ Hin Hy).
Qed.

Lemma bsplineDerivative_division_guard_witness :
  Spec.finite_point
    (bsplineDerivative [mkPoint (Some 0) (Some 0); mkPoint (Some 1) (Some 1);
                        mkPoint (Some 2) (Some 0)] 2 (1 # 2) [0; 0; 0; 1; 1; 1]).
Proof.
  apply (proj1 (bsplineDerivative_division_guard
                  [mkPoint (Some 0) (Some 0); mkPoint (Some 1) (Some 1);
                   mkPoint (Some 2) (Some 0)] 2 (1 # 2) [0; 0; 0; 1; 1; 1]
                  ltac:(lia) ltac:(simpl; lia)
                  ltac:(intros p Hp; simpl in Hp;
                        destruct Hp as [<-|[<-|[<-|[]]]]; eexists _, _; split; reflexivity))).
  intros i Hi. simpl in Hi.
  destruct i as [|[|i]]; [vm_compute; reflexivity|vm_compute; reflexivity|lia].
Defined.

End BSplineClaims.

(** * Further properties of the curve core *)

(** ** Sampling and evaluation helpers *)
Module CurveFacts.
Import Bezier Spec BernsteinFacts DeCasteljauFacts.

Lemma nth_map_seq_gen {A : Type} (f : nat -> A) (m j : nat) (d : A) :
  (j < m)%nat -> nth j (map f (seq 0 m)) d = f j.
Proof.
  intro Hj. rewrite (nth_indep _ d (f 0%nat)) by (rewrite length_map, length_seq; lia).
  rewrite map_nth, seq_nth by lia. reflexivity.
Qed.

Lemma sample_nth {A : Type} (f : Q -> A) (n i : nat) :
  (1 <= n)%nat -> (i <= n)%nat ->
  nth i (map (fun j => option_map f (sample_param j n)) (seq 0 (n + 1))) None
  = Some (f (Qnat i / Qnat n)).
Proof.
  intros Hn Hi.
  rewrite (nth_map_seq_gen (fun j => option_map f (sample_param j n))) by lia.
  unfold sample_param. destruct (Nat.eqb_spec n 0); [lia|reflexivity].
Qed.

Lemma sample_length {A : Type} (f : nat -> A) (n : nat) :
  length (map f (seq 0 (n + 1))) = (n + 1)%nat.
Proof. rewrite length_map, length_seq. reflexivity. Qed.

Lemma Qnat_pos (n : nat) : (1 <= n)%nat -> ~ Qnat n == 0.
Proof. intro H. unfold Qnat, Qeq. simpl. lia. Qed.

Lemma Qnat_div_0 (n : nat) : Qnat 0 / Qnat n == 0.
Proof. unfold Qdiv. change (Qnat 0) with 0. ring. Qed.

Lemma Qnat_div_n (n : nat) : (1 <= n)%nat -> Qnat n / Qnat n == 1.
Proof. intro H. field. apply Qnat_pos. exact H. Qed.

Lemma Math_pow_proper (u u' : Q) (e : nat) : u == u' -> Math_pow u e == Math_pow u' e.
Proof.
  intro Hu. induction e as [|e IH]; cbn [Math_pow]; [reflexivity|].
  rewrite IH, Hu. reflexivity.
Qed.

Lemma Math_pow_1 (e : nat) : Math_pow 1 e == 1.
Proof. induction e as [|e IH]; cbn [Math_pow]; [reflexivity|rewrite IH; ring]. Qed.

Lemma bernstein_proper (i n : nat) (u u' : Q) : u == u' -> bernstein i n u == bernstein i n u'.
Proof.
  intro Hu. rewrite !bernstein_eq.
  rewrite (Math_pow_proper u u' i Hu), (Math_pow_proper (1 - u) (1 - u') (n - i)) by (rewrite Hu; reflexivity).
  reflexivity.
Qed.

Lemma bsum_proper (proj : Point -> Q) (l : list Point) (n i0 : nat) (u u' : Q) :
  u == u' -> bsum proj l n i0 u == bsum proj l n i0 u'.
Proof.
  intro Hu. revert i0. induction l as [|p l IH]; intro i0; simpl; [reflexivity|].
  rewrite (bernstein_proper i0 n u u' Hu), IH. reflexivity.
Qed.

Lemma evaluateBezier_proper (points : list Point) (u u' : Q) :
  u == u' -> point_eq (evaluateBezier points u) (evaluateBezier points u').
Proof.
  intro Hu. unfold evaluateBezier. split.
  - rewrite !evaluateBezier_loop_x. rewrite (bsum_proper x _ _ _ u u' Hu). reflexivity.
  - rewrite !evaluateBezier_loop_y. rewrite (bsum_proper y _ _ _ u u' Hu). reflexivity.
Qed.

Lemma bsum_at_0_shift (proj : Point -> Q) (l : list Point) (n i0 : nat) :
  bsum proj l n (S i0) 0 == 0.
Proof.
  revert i0. induction l as [|p l IH]; intro i0; simpl; [reflexivity|].
  rewrite IH, bernstein_eq. cbn [Math_pow]. ring.
Qed.

Lemma bsum_at_0 (proj : Point -> Q) (p : Point) (l : list Point) (n : nat) :
  bsum proj (p :: l) n 0 0 == proj p.
Proof.
  simpl. rewrite bsum_at_0_shift, bernstein_eq.
  change (binomial_loop n 0) with 1. rewrite Nat.sub_0_r.
  rewrite (Math_pow_proper (1 - 0) 1 n) by reflexivity. rewrite Math_pow_1.
  cbn [Math_pow]. ring.
Qed.

Lemma bsum_at_1 (proj : Point -> Q) (l : list Point) (n i0 : nat) :
  l <> [] -> (i0 + length l = S n)%nat ->
  bsum proj l n i0 1 == proj (last l (mkPoint 0 0)).
Proof.
  revert i0. induction l as [|p l IH]; intros i0 Hne Hlen; [congruence|].
  destruct l as [|q r].
  - simpl in Hlen. assert (i0 = n) by lia. subst i0. simpl.
    rewrite bernstein_eq, binomial_loop_diag, Nat.sub_diag, Math_pow_1. cbn [Math_pow]. ring.
  - change (bsum proj (p :: q :: r) n i0 1)
      with (proj p * bernstein i0 n 1 + bsum proj (q :: r) n (S i0) 1).
    rewrite IH by (discriminate || (simpl in *; lia)).
    rewrite bernstein_eq. simpl in Hlen.
    destruct (n - i0)%nat as [|m] eqn:E; [lia|].
    cbn [Math_pow]. change (last (p :: q :: r) (mkPoint 0 0)) with (last (q :: r) (mkPoint 0 0)).
    ring.
Qed.

(** [evaluateBezier] interpolates the first and the last control point. *)
Lemma evaluateBezier_at_0 (points : list Point) :
  points <> [] -> point_eq (evaluateBezier points 0) (nth 0 points (mkPoint 0 0)).
Proof.
  intro Hne. destruct points as [|p l]; [congruence|].
  unfold evaluateBezier. split.
  - rewrite evaluateBezier_loop_x, bsum_at_0. simpl. ring.
  - rewrite evaluateBezier_loop_y, bsum_at_0. simpl. ring.
Qed.

Lemma evaluateBezier_at_1 (points : list Point) :
  points <> [] -> point_eq (evaluateBezier points 1) (last points (mkPoint 0 0)).
Proof.
  intro Hne. assert (Hl : (0 + length points = S (length points - 1))%nat)
    by (destruct points; [congruence|simpl; lia]).
  unfold evaluateBezier. split.
  - rewrite evaluateBezier_loop_x, bsum_at_1 by assumption. ring.
  - rewrite evaluateBezier_loop_y, bsum_at_1 by assumption. ring.
Qed.

Lemma last_nth (l : list Point) (d : Point) : last l d = nth (length l - 1) l d.
Proof.
  induction l as [|p l IH]; [reflexivity|].
  destruct l as [|q r]; [reflexivity|].
  change (last (p :: q :: r) d) with (last (q :: r) d). rewrite IH.
  simpl. rewrite Nat.sub_0_r. reflexivity.
Qed.

Lemma point_eq_trans (p q r : Point) : point_eq p q -> point_eq q r -> point_eq p r.
Proof. intros [H1 H2] [H3 H4]. split; [rewrite H1; exact H3|rewrite H2; exact H4]. Qed.

Lemma lerp_between (u a b m M : Q) :
  0 <= u <= 1 -> m <= a <= M -> m <= b <= M -> m <= (1 - u) * a + u * b <= M.
Proof.
  intros [Hu0 Hu1] [Ha0 Ha1] [Hb0 Hb1].
  assert (0 <= (1 - u) * (a - m)) by (apply Qmult_le_0_compat; lra).
  assert (0 <= u * (b - m)) by (apply Qmult_le_0_compat; lra).
  assert (0 <= (1 - u) * (M - a)) by (apply Qmult_le_0_compat; lra).
  assert (0 <= u * (M - b)) by (apply Qmult_le_0_compat; lra).
  split.
  - setoid_replace ((1 - u) * a + u * b) with (m + ((1 - u) * (a - m) + u * (b - m))) by ring. lra.
  - setoid_replace ((1 - u) * a + u * b) with (M - ((1 - u) * (M - a) + u * (M - b))) by ring. lra.
Qed.

Lemma level_bounds (proj : Point -> Q) (u m M : Q) (l : list Point) :
  (forall p q, proj (lerp u p q) == (1 - u) * proj p + u * proj q) ->
  0 <= u <= 1 -> (forall p, In p l -> m <= proj p <= M) ->
  forall q, In q (deCasteljau_level l u) -> m <= proj q <= M.
Proof.
  intros Hlerp Hu. induction l as [|p l IH]; intros Hl q Hq; [destruct Hq|].
  destruct l as [|p' r]; [destruct Hq|].
  cbn [deCasteljau_level In] in Hq. destruct Hq as [<-|Hq].
  - rewrite Hlerp. apply lerp_between;
      [exact Hu|apply Hl; left; reflexivity|apply Hl; right; left; reflexivity].
  - apply IH; [intros p0 Hp0; apply Hl; right; exact Hp0|exact Hq].
Qed.

Lemma bsum_bounds (proj : Point -> Q) (u m M : Q) :
  (forall p q, proj (lerp u p q) == (1 - u) * proj p + u * proj q) ->
  0 <= u <= 1 ->
  forall n l, length l = S n -> (forall p, In p l -> m <= proj p <= M) ->
  m <= bsum proj l n 0 u <= M.
Proof.
  intros Hlerp Hu n. induction n as [|n IH]; intros l Hlen Hl.
  - destruct l as [|p [|]]; try discriminate.
    simpl. rewrite bernstein_eq. change (binomial_loop 0 0) with 1. cbn [Math_pow Nat.sub].
    setoid_replace (proj p * (1 * 1 * 1) + 0) with (proj p) by ring.
    apply Hl. left. reflexivity.
  - rewrite (bsum_level_full proj u Hlerp l n ltac:(lia)).
    apply IH; [rewrite level_length; lia|].
    apply level_bounds; assumption.
Qed.

End CurveFacts.

(** ** Hermite curves *)
Module HermiteExtras.
Import HermiteCurve Hermite CurveFacts.

(** X1: the Hermite curve starts at [P0] ([u = 0]) and ends at [P1] ([u = 1]). *)
Theorem evaluateHermite_endpoints (form : HermiteForm) :
  point_eq (evaluateHermite form 0) (P0 form) /\ point_eq (evaluateHermite form 1) (P1 form).
Proof.
  unfold evaluateHermite, h0, h1, h2, h3, point_eq. cbn [Math_pow x y].
  repeat split; ring.
Qed.

(** X2: the cubic polynomials returned by [hermiteToPolynomial] evaluate to
    the point [evaluateHermite] computes, at every [u]. *)
Theorem hermiteToPolynomial_evaluates (form : HermiteForm) :
  exists px py, hermiteToPolynomial form = Ok (px, py) /\
    forall u, point_eq (mkPoint (cubic_value px u) (cubic_value py u)) (evaluateHermite form u).
Proof.
  destruct form as [[p0x p0y] [p1x p1y] [t0x t0y] [t1x t1y]].
  eexists _, _. split; [reflexivity|]. intro u.
  unfold point_eq, cubic_value, evaluateHermite, h0, h1, h2, h3, Matrices.row_times.
  simpl. split; ring.
Qed.

(** X3: with [numPoints >= 1], [generateHermiteCurvePoints] returns
    [numPoints + 1] samples, the [i]-th at [u = i / numPoints]; the first is
    [P0] and the last [P1]. *)
Theorem generateHermiteCurvePoints_samples (form : HermiteForm) (numPoints : nat) :
  (1 <= numPoints)%nat ->
  length (generateHermiteCurvePoints form numPoints) = (numPoints + 1)%nat /\
  (forall i, (i <= numPoints)%nat ->
     nth i (generateHermiteCurvePoints form numPoints) None
     = Some (evaluateHermite form (Qnat i / Qnat numPoints))) /\
  (exists p, nth 0 (generateHermiteCurvePoints form numPoints) None = Some p /\ point_eq p (P0 form)) /\
  (exists p, nth numPoints (generateHermiteCurvePoints form numPoints) None = Some p /\
             point_eq p (P1 form)).
Proof.
  intro Hn. unfold generateHermiteCurvePoints.
  split; [apply sample_length|]. split; [intros i Hi; apply sample_nth; lia|].
  split.
  - eexists. split; [apply sample_nth; lia|].
    unfold evaluateHermite, h0, h1, h2, h3, point_eq. cbn [Math_pow x y].
    rewrite Qnat_div_0. split; ring.
  - eexists. split; [apply sample_nth; lia|].
    unfold evaluateHermite, h0, h1, h2, h3, point_eq. cbn [Math_pow x y].
    rewrite (Qnat_div_n numPoints Hn). split; ring.
Qed.

Lemma generateHermiteCurvePoints_samples_witness :
  (1 <= 4)%nat /\
  length (generateHermiteCurvePoints
            (mkHermite (mkPoint 0 0) (mkPoint 1 0) (mkPoint 1 1) (mkPoint 1 (-1))) 4) = 5%nat.
Proof.
  split; [lia|].
  exact (proj1 (generateHermiteCurvePoints_samples
                  (mkHermite (mkPoint 0 0) (mkPoint 1 0) (mkPoint 1 1) (mkPoint 1 (-1))) 4
                  ltac:(lia))).
Defined.

End HermiteExtras.

(** ** Bezier curves *)
Module BezierExtras.
Import Bezier BezierCurve Spec BernsteinFacts DeCasteljauFacts CurveFacts.

(** X4: a non-empty Bezier curve starts at its first control point
    ([u = 0]) and ends at its last one ([u = 1]). *)
Theorem evaluateBezier_endpoints (points : list Point) :
  points <> [] ->
  point_eq (evaluateBezier points 0) (nth 0 points (mkPoint 0 0)) /\
  point_eq (evaluateBezier points 1) (last points (mkPoint 0 0)).
Proof.
  intro Hne. split; [apply evaluateBezier_at_0|apply evaluateBezier_at_1]; exact Hne.
Qed.

Lemma evaluateBezier_endpoints_witness :
  [mkPoint 0 0; mkPoint 1 2; mkPoint 3 3] <> [] /\
  point_eq (evaluateBezier [mkPoint 0 0; mkPoint 1 2; mkPoint 3 3] 1) (mkPoint 3 3).
Proof.
  split; [discriminate|].
  exact (proj2 (evaluateBezier_endpoints [mkPoint 0 0; mkPoint 1 2; mkPoint 3 3]
                  ltac:(discriminate))).
Defined.

(** X5: for [u] in [[0, 1]], the point [evaluateBezier] computes lies in
    every axis-aligned box that contains all control points. *)
Theorem evaluateBezier_bounding_box (points : list Point) (u mx Mx my My : Q) :
  points <> [] -> 0 <= u <= 1 ->
  (forall p, In p points -> (mx <= x p <= Mx) /\ (my <= y p <= My)) ->
  (mx <= x (evaluateBezier points u) <= Mx) /\ (my <= y (evaluateBezier points u) <= My).
Proof.
  intros Hne Hu Hpts.
  assert (Hlen : length points = S (length points - 1))
    by (destruct points; [congruence|simpl; lia]).
  unfold evaluateBezier. rewrite evaluateBezier_loop_x, evaluateBezier_loop_y, !Qplus_0_l.
  split.
  - apply (bsum_bounds x u mx Mx (fun p q => Qeq_refl _) Hu); [exact Hlen|].
    intros p Hp. apply Hpts. exact Hp.
  - apply (bsum_bounds y u my My (fun p q => Qeq_refl _) Hu); [exact Hlen|].
    intros p Hp. apply Hpts. exact Hp.
Qed.

Lemma evaluateBezier_bounding_box_witness :
  0 <= 1 # 2 <= 1 /\
  (0 <= x (evaluateBezier [mkPoint 0 0; mkPoint 1 2] (1 # 2)) <= 1) /\
  (0 <= y (evaluateBezier [mkPoint 0 0; mkPoint 1 2] (1 # 2)) <= 2).
Proof.
  split; [split; vm_compute; discriminate|].
  apply (evaluateBezier_bounding_box [mkPoint 0 0; mkPoint 1 2] (1 # 2) 0 1 0 2).
  - discriminate.
  - split; vm_compute; discriminate.
  - intros p Hp. simpl in Hp.
    destruct Hp as [<-|[<-|[]]]; split; split; vm_compute; discriminate.
Defined.

(** X6: with [numPoints >= 1], [generateBezierCurvePoints] returns
    [numPoints + 1] samples, the [i]-th being [evaluateBezier] at
    [i / numPoints]; the first sample is the first control point and the
    last sample the last control point. *)
Theorem generateBezierCurvePoints_samples (points : list Point) (numPoints : nat) :
  points <> [] -> (1 <= numPoints)%nat ->
  length (generateBezierCurvePoints points numPoints) = (numPoints + 1)%nat /\
  (forall i, (i <= numPoints)%nat ->
     nth i (generateBezierCurvePoints points numPoints) None
     = Some (evaluateBezier points (Qnat i / Qnat numPoints))) /\
  (exists p, nth 0 (generateBezierCurvePoints points numPoints) None = Some p /\
             point_eq p (nth 0 points (mkPoint 0 0))) /\
  (exists p, nth numPoints (generateBezierCurvePoints points numPoints) None = Some p /\
             point_eq p (last points (mkPoint 0 0))).
Proof.
  intros Hne Hn. unfold generateBezierCurvePoints.
  split; [apply sample_length|]. split; [intros i Hi; apply sample_nth; lia|].
  split.
  - eexists. split; [apply sample_nth; lia|].
    eapply point_eq_trans; [apply evaluateBezier_proper, Qnat_div_0|].
    apply evaluateBezier_at_0. exact Hne.
  - eexists. split; [apply sample_nth; lia|].
    eapply point_eq_trans; [apply evaluateBezier_proper, (Qnat_div_n numPoints Hn)|].
    apply evaluateBezier_at_1. exact Hne.
Qed.

Lemma generateBezierCurvePoints_samples_witness :
  [mkPoint 0 0; mkPoint 1 2; mkPoint 3 3] <> [] /\ (1 <= 10)%nat /\
  length (generateBezierCurvePoints [mkPoint 0 0; mkPoint 1 2; mkPoint 3 3] 10) = 11%nat.
Proof.
  split; [discriminate|]. split; [lia|].
  exact (proj1 (generateBezierCurvePoints_samples [mkPoint 0 0; mkPoint 1 2; mkPoint 3 3] 10
                  ltac:(discriminate) ltac:(lia))).
Defined.

End BezierExtras.

Module DerivativeFacts.
Import Bezier BezierCurve BezierEditor CurveFacts.

Lemma derivPoints_nonempty (f : nat -> Point) (n : nat) : (1 <= n)%nat -> map f (seq 0 n) <> [].
Proof.
  intros Hn HD. apply (f_equal (@length Point)) in HD.
  rewrite length_map, length_seq in HD. simpl in HD. lia.
Qed.

Lemma bezierDerivative_at_0 (points : list Point) :
  (2 <= length points)%nat ->
  point_eq (bezierDerivative points 0)
    (mkPoint (Qnat (length points - 1) * (x (nth 1 points (mkPoint 0 0)) - x (nth 0 points (mkPoint 0 0))))
             (Qnat (length points - 1) * (y (nth 1 points (mkPoint 0 0)) - y (nth 0 points (mkPoint 0 0))))).
Proof.
  intro H2. unfold bezierDerivative. cbv zeta.
  eapply point_eq_trans; [apply evaluateBezier_at_0, derivPoints_nonempty; lia|].
  rewrite nth_map_seq_gen by lia. split; reflexivity.
Qed.

Lemma bezierDerivative_at_1 (points : list Point) :
  (2 <= length points)%nat ->
  point_eq (bezierDerivative points 1)
    (mkPoint (Qnat (length points - 1) *
                (x (nth (length points - 1) points (mkPoint 0 0))
                 - x (nth (length points - 2) points (mkPoint 0 0))))
             (Qnat (length points - 1) *
                (y (nth (length points - 1) points (mkPoint 0 0))
                 - y (nth (length points - 2) points (mkPoint 0 0))))).
Proof.
  intro H2. unfold bezierDerivative. cbv zeta.
  eapply point_eq_trans; [apply evaluateBezier_at_1, derivPoints_nonempty; lia|].
  rewrite last_nth, length_map, length_seq, nth_map_seq_gen by lia.
  replace (length points - 1 - 1 + 1)%nat with (length points - 1)%nat by lia.
  replace (length points - 1 - 1)%nat with (length points - 2)%nat by lia.
  split; reflexivity.
Qed.

Lemma length_set_nth (l : list Point) (i : nat) (v : Point) : length (set_nth l i v) = length l.
Proof.
  revert i. induction l as [|p l IH]; intro i; [reflexivity|].
  destruct i; simpl; [reflexivity|rewrite IH; reflexivity].
Qed.

Lemma nth_set_nth_eq (l : list Point) (i : nat) (v d : Point) :
  (i < length l)%nat -> nth i (set_nth l i v) d = v.
Proof.
  revert i. induction l as [|p l IH]; intros i Hi; simpl in Hi; [lia|].
  destruct i; simpl; [reflexivity|apply IH; lia].
Qed.

Lemma nth_set_nth_neq (l : list Point) (i j : nat) (v d : Point) :
  j <> i -> nth j (set_nth l i v) d = nth j l d.
Proof.
  revert i j. induction l as [|p l IH]; intros i j Hne; [reflexivity|].
  destruct i, j; simpl; try reflexivity; [lia|apply IH; lia].
Qed.

End DerivativeFacts.

Module BezierEditorExtras.
Import Bezier BezierCurve BezierEditor CurveFacts DerivativeFacts.

Ltac eval_qnats :=
  repeat match goal with
  | |- context [Qnat ?k] =>
      let v := eval vm_compute in (Qnat k) in change (Qnat k) with v
  end.

Ltac bezier_field :=
  unfold point_eq, evaluateBezier;
  cbn [evaluateBezier_loop length Nat.sub x y fst snd];
  rewrite !BernsteinFacts.bernstein_eq; cbn [Math_pow Nat.sub];
  eval_binomials; split; field.

(** X7: [bezierDerivative] is [(0,0)] on a polygon of at most one point;
    otherwise its value at [u = 0] is [n (P1 - P0)] and at [u = 1]
    [n (Pn - P(n-1))], with [n = points.length - 1]. *)
Theorem bezierDerivative_endpoints (points : list Point) (u : Q) :
  ((length points <= 1)%nat -> bezierDerivative points u = mkPoint 0 0) /\
  ((2 <= length points)%nat ->
   point_eq (bezierDerivative points 0)
     (mkPoint (Qnat (length points - 1) * (x (nth 1 points (mkPoint 0 0)) - x (nth 0 points (mkPoint 0 0))))
              (Qnat (length points - 1) * (y (nth 1 points (mkPoint 0 0)) - y (nth 0 points (mkPoint 0 0))))) /\
   point_eq (bezierDerivative points 1)
     (mkPoint (Qnat (length points - 1) *
                 (x (nth (length points - 1) points (mkPoint 0 0))
                  - x (nth (length points - 2) points (mkPoint 0 0))))
              (Qnat (length points - 1) *
                 (y (nth (length points - 1) points (mkPoint 0 0))
                  - y (nth (length points - 2) points (mkPoint 0 0)))))).
Proof.
  split.
  - intro H. destruct points as [|p [|q r]]; simpl in H; [reflexivity|reflexivity|lia].
  - intro H. split; [apply bezierDerivative_at_0|apply bezierDerivative_at_1]; exact H.
Qed.

Lemma bezierDerivative_endpoints_witness :
  point_eq (bezierDerivative [mkPoint 0 0; mkPoint 1 2; mkPoint 3 3] 0)
           (mkPoint (Qnat 2 * (1 - 0)) (Qnat 2 * (2 - 0))).
Proof.
  exact (proj1 (proj2 (bezierDerivative_endpoints [mkPoint 0 0; mkPoint 1 2; mkPoint 3 3] 0)
                  ltac:(simpl; lia))).
Defined.

(** X8: on 3 or 4 control points, [bezierDerivative] is the derivative of
    the power-basis polynomials that [bezierToPolynomial] returns. *)
Theorem bezierDerivative_power_basis (points : list Point) :
  (length points = 3 \/ length points = 4)%nat ->
  exists px py, BezierTrim.bezierToPolynomial points = Ok (px, py) /\
    forall u, horner_deriv px u == x (bezierDerivative points u) /\
              horner_deriv py u == y (bezierDerivative points u).
Proof.
  intros [Hl|Hl].
  - destruct points as [|[x0 y0] [|[x1 y1] [|[x2 y2] [|]]]]; try discriminate.
    eexists _, _. split; [reflexivity|]. intro u.
    unfold bezierDerivative, evaluateBezier, Matrices.row_times.
    cbn [evaluateBezier_loop horner_deriv length Nat.sub Nat.add x y nth map seq fold_left].
    rewrite !BernsteinFacts.bernstein_eq. cbn [Math_pow Nat.sub].
    eval_binomials. eval_qnats. split; ring.
  - destruct points as [|[x0 y0] [|[x1 y1] [|[x2 y2] [|[x3 y3] [|]]]]]; try discriminate.
    eexists _, _. split; [reflexivity|]. intro u.
    unfold bezierDerivative, evaluateBezier, Matrices.row_times.
    cbn [evaluateBezier_loop horner_deriv length Nat.sub Nat.add x y nth map seq fold_left].
    rewrite !BernsteinFacts.bernstein_eq. cbn [Math_pow Nat.sub].
    eval_binomials. eval_qnats. split; ring.
Qed.

Lemma bezierDerivative_power_basis_witness :
  (length [mkPoint 0 0; mkPoint 1 2; mkPoint 3 3] = 3 \/
   length [mkPoint 0 0; mkPoint 1 2; mkPoint 3 3] = 4)%nat /\
  exists px py, BezierTrim.bezierToPolynomial [mkPoint 0 0; mkPoint 1 2; mkPoint 3 3] = Ok (px, py).
Proof.
  split; [left; reflexivity|].
  destruct (bezierDerivative_power_basis [mkPoint 0 0; mkPoint 1 2; mkPoint 3 3]
              (or_introl eq_refl)) as (px & py & Hok & _).
  exists px, py. exact Hok.
Defined.

(** X9: the control points [P1 = (P0 + 2 PStar)/3] and [P2 = (2 PStar + P3)/3]
    of [calculateIntersectionControlPoints] make the cubic
    [[P0, P1, P2, P3]] trace exactly the quadratic [[P0, PStar, P3]]. *)
Theorem calculateIntersectionControlPoints_elevation (p0 pStar p3 : Point) (u : Q) :
  point_eq (evaluateBezier [p0; fst (calculateIntersectionControlPoints p0 pStar p3);
                               snd (calculateIntersectionControlPoints p0 pStar p3); p3] u)
           (evaluateBezier [p0; pStar; p3] u).
Proof.
  unfold calculateIntersectionControlPoints. bezier_field.
Qed.

(** X10: in the editor's intersection mode ([PStar] the midpoint of [P0] and
    [P3]) the cubic is the segment from [P0] to [P3] traversed at constant
    speed: its point at [u] is [(1-u) P0 + u P3] and its derivative is
    [P3 - P0] for every [u]. *)
Theorem intersection_polygon_segment (p0 p3 : Point) (u : Q) :
  point_eq (evaluateBezier (intersection_polygon p0 p3) u) (lerp u p0 p3) /\
  point_eq (bezierDerivative (intersection_polygon p0 p3) u)
           (mkPoint (x p3 - x p0) (y p3 - y p0)).
Proof.
  split.
  - unfold intersection_polygon, calculateIntersectionControlPoints, lerp. bezier_field.
  - unfold intersection_polygon, calculateIntersectionControlPoints, bezierDerivative.
    cbn [length Nat.sub seq map nth Nat.add x y].
    eval_qnats. bezier_field.
Qed.

(** X11: the editor's change of degree from 2 to 3, which turns
    [[p0, p1, p2]] into [[p0, (2 p1 + p0)/3, (2 p1 + p2)/3, p2]], keeps the
    curve: both polygons give the same point at every [u]. *)
Theorem quadratic_to_cubic_same_curve (p0 p1 p2 : Point) (u : Q) :
  point_eq (evaluateBezier (quadratic_to_cubic p0 p1 p2) u) (evaluateBezier [p0; p1; p2] u).
Proof.
  unfold quadratic_to_cubic. bezier_field.
Qed.

(** X12: on a polygon of at least three points, the editor's closed curve
    ends where it starts and with the tangent it starts with:
    [evaluateBezier] and [bezierDerivative] take the same value at [u = 0]
    and at [u = 1]. *)
Theorem closed_polygon_C1 (cps : list Point) :
  (3 <= length cps)%nat ->
  point_eq (evaluateBezier (closed_polygon cps) 0) (evaluateBezier (closed_polygon cps) 1) /\
  point_eq (bezierDerivative (closed_polygon cps) 0) (bezierDerivative (closed_polygon cps) 1).
Proof.
  intro H3.
  destruct cps as [|p0 rest]; [simpl in H3; lia|].
  set (eff := (p0 :: rest) ++ [p0]).
  assert (Hleff : length eff = S (S (length rest))) by (unfold eff; rewrite length_app; simpl; lia).
  set (p1 := nth 1 eff (mkPoint 0 0)).
  set (r := mkPoint (2 * x p0 - x p1) (2 * y p0 - y p1)).
  assert (Hc : closed_polygon (p0 :: rest) = set_nth eff (length eff - 2) r).
  { unfold closed_polygon. cbn [hd]. fold eff. fold p1. fold r.
    destruct (Nat.leb_spec 4 (length eff)) as [_|Hlt]; [reflexivity|simpl in H3; lia]. }
  rewrite Hc.
  set (C := set_nth eff (length eff - 2) r).
  assert (HlC : length C = length eff) by apply length_set_nth.
  assert (HCne : C <> []) by (intro HC; rewrite HC in HlC; simpl in HlC; lia).
  assert (Hn0 : nth 0 C (mkPoint 0 0) = p0)
    by (unfold C; rewrite nth_set_nth_neq by (simpl in H3; lia); reflexivity).
  assert (Hn1 : nth 1 C (mkPoint 0 0) = p1)
    by (unfold C; rewrite nth_set_nth_neq by (simpl in H3; lia); reflexivity).
  assert (Hlast : nth (length C - 1) C (mkPoint 0 0) = p0).
  { rewrite HlC. unfold C. rewrite nth_set_nth_neq by lia.
    rewrite Hleff. unfold eff. rewrite app_nth2 by (simpl; lia).
    replace (S (S (length rest)) - 1 - length (p0 :: rest))%nat with 0%nat by (simpl; lia).
    reflexivity. }
  assert (Hprev : nth (length C - 2) C (mkPoint 0 0) = r).
  { rewrite HlC. unfold C. apply nth_set_nth_eq. lia. }
  split.
  - eapply point_eq_trans; [apply evaluateBezier_at_0; exact HCne|].
    eapply point_eq_trans; [|split; symmetry; apply evaluateBezier_at_1; exact HCne].
    rewrite last_nth, Hn0, Hlast. split; reflexivity.
  - eapply point_eq_trans; [apply bezierDerivative_at_0; lia|].
    eapply point_eq_trans;
      [|split; symmetry; apply bezierDerivative_at_1; lia].
    rewrite Hn0, Hn1, Hlast, Hprev. unfold r, point_eq. cbn [x y].
    split; ring.
Qed.

Lemma closed_polygon_C1_witness :
  (3 <= length [mkPoint 0 0; mkPoint 1 2; mkPoint 3 3])%nat /\
  point_eq (evaluateBezier (closed_polygon [mkPoint 0 0; mkPoint 1 2; mkPoint 3 3]) 0)
           (evaluateBezier (closed_polygon [mkPoint 0 0; mkPoint 1 2; mkPoint 3 3]) 1).
Proof.
  split; [simpl; lia|].
  exact (proj1 (closed_polygon_C1 [mkPoint 0 0; mkPoint 1 2; mkPoint 3 3] ltac:(simpl; lia))).
Defined.

End BezierEditorExtras.

(** ** Matrices *)
Module MatrixFacts.
Import Matrices MatrixOps CurveFacts.

Lemma fsum_S (f : nat -> Q) (n : nat) : fsum f (S n) == fsum f n + f n.
Proof. unfold fsum. rewrite seq_S, fold_left_app. reflexivity. Qed.

Lemma fsum_ext (f g : nat -> Q) (n : nat) :
  (forall j, (j < n)%nat -> f j == g j) -> fsum f n == fsum g n.
Proof.
  induction n as [|n IH]; intro H; [reflexivity|].
  rewrite !fsum_S, IH by (intros j Hj; apply H; lia).
  rewrite (H n) by lia. reflexivity.
Qed.

Lemma fsum_plus (f g : nat -> Q) (n : nat) :
  fsum (fun j => f j + g j) n == fsum f n + fsum g n.
Proof.
  induction n as [|n IH]; [reflexivity|].
  rewrite !fsum_S, IH. ring.
Qed.

Lemma fsum_scal (c : Q) (f : nat -> Q) (n : nat) :
  fsum (fun j => c * f j) n == c * fsum f n.
Proof.
  induction n as [|n IH]; [unfold fsum; simpl; ring|].
  rewrite !fsum_S, IH. ring.
Qed.

Lemma fsum_zero (n : nat) : fsum (fun _ => 0) n == 0.
Proof. induction n as [|n IH]; [reflexivity|rewrite fsum_S, IH; ring]. Qed.

Lemma fsum_swap (g : nat -> nat -> Q) (n m : nat) :
  fsum (fun j => fsum (fun k => g j k) m) n == fsum (fun k => fsum (fun j => g j k) n) m.
Proof.
  induction n as [|n IH].
  - rewrite (fsum_ext _ (fun _ => 0) m) by (intros; reflexivity).
    rewrite fsum_zero. reflexivity.
  - rewrite fsum_S, IH.
    symmetry. etransitivity; [apply fsum_ext; intros k _; apply fsum_S|].
    rewrite fsum_plus. reflexivity.
Qed.

Lemma row_times_fsum (row v : list Q) (cols : nat) :
  row_times row v cols = fsum (fun j => nth j row 0 * nth j v 0) cols.
Proof. reflexivity. Qed.

Lemma nth_map_gen {A B : Type} (f : A -> B) (l : list A) (i : nat) (d : B) (da : A) :
  (i < length l)%nat -> nth i (map f l) d = f (nth i l da).
Proof.
  intro Hi. rewrite (nth_indep _ d (f da)) by (rewrite length_map; exact Hi).
  apply map_nth.
Qed.

Lemma Forall2_map_Qeq {A : Type} (g1 g2 : A -> Q) (l : list A) :
  (forall a, In a l -> g1 a == g2 a) -> Forall2 Qeq (map g1 l) (map g2 l).
Proof.
  induction l as [|a l IH]; intro H; constructor.
  - apply H. left. reflexivity.
  - apply IH. intros b Hb. apply H. right. exact Hb.
Qed.

Lemma map_nth_seq_self (l : list Q) (c : nat) :
  length l = c -> map (fun j => nth j l 0) (seq 0 c) = l.
Proof.
  intro Hl. apply (nth_ext _ _ 0 0); rewrite length_map, length_seq; [lia|].
  intros j Hj. rewrite nth_map_seq_gen by exact Hj. reflexivity.
Qed.

End MatrixFacts.

Module MatrixExtras.
Import Matrices MatrixOps CurveFacts MatrixFacts.

(** X13: [multiplyVector] throws a [TypeError] on an empty matrix and a
    dimension error when the column count differs from the vector's
    length; otherwise it returns one entry per row. *)
Theorem multiplyVector_errors (A : Matrix) (v : list Q) :
  (A = [] -> multiplyVector A v = Err TypeError) /\
  (forall c, A <> [] -> rectangular A c -> c <> length v ->
     multiplyVector A v = Err DimensionMismatch) /\
  (forall c, A <> [] -> rectangular A c -> c = length v ->
     exists r, multiplyVector A v = Ok r /\ length r = length A).
Proof.
  split; [intros ->; reflexivity|].
  destruct A as [|row0 A']; [split; intros c Hne; congruence|].
  assert (H0 : forall c, rectangular (row0 :: A') c -> length row0 = c)
    by (intros c Hr; apply Hr; left; reflexivity).
  split.
  - intros c _ Hr Hc. unfold multiplyVector. rewrite (H0 c Hr).
    destruct (Nat.eqb_spec c (length v)); [contradiction|reflexivity].
  - intros c _ Hr Hc. unfold multiplyVector. rewrite (H0 c Hr).
    destruct (Nat.eqb_spec c (length v)); [|contradiction].
    eexists. split; [reflexivity|]. rewrite length_map. reflexivity.
Qed.

Lemma multiplyVector_errors_witness :
  multiplyVector [[1; 2]; [3; 4]] [1; 1; 1] = Err DimensionMismatch.
Proof.
  apply (proj1 (proj2 (multiplyVector_errors [[1; 2]; [3; 4]] [1; 1; 1])) 2%nat).
  - discriminate.
  - intros row Hrow. simpl in Hrow. destruct Hrow as [<-|[<-|[]]]; reflexivity.
  - simpl. lia.
Defined.

(** X14: [multiply] throws a [TypeError] when either matrix is empty and a
    dimension error when the column count of [A] differs from the row
    count of [B]; otherwise it returns a matrix with the rows of [A] and
    the columns of [B]. *)
Theorem multiply_errors (A B : Matrix) :
  (A = [] -> multiply A B = Err TypeError) /\
  (A <> [] -> B = [] -> multiply A B = Err TypeError) /\
  (forall ca, A <> [] -> B <> [] -> rectangular A ca -> ca <> length B ->
     multiply A B = Err DimensionMismatch) /\
  (forall ca cb, A <> [] -> B <> [] -> rectangular A ca -> rectangular B cb -> ca = length B ->
     exists C, multiply A B = Ok C /\ length C = length A /\ rectangular C cb).
Proof.
  split; [intros ->; reflexivity|].
  destruct A as [|a0 A']; [split; [|split]; intros; congruence|].
  split; [intros _ ->; reflexivity|].
  destruct B as [|b0 B']; [split; intros; congruence|].
  assert (Ha0 : forall ca, rectangular (a0 :: A') ca -> length a0 = ca)
    by (intros c Hr; apply Hr; left; reflexivity).
  assert (Hb0 : forall cb, rectangular (b0 :: B') cb -> length b0 = cb)
    by (intros c Hr; apply Hr; left; reflexivity).
  split.
  - intros ca _ _ Hr Hc. unfold multiply. cbv zeta. rewrite (Ha0 ca Hr).
    destruct (Nat.eqb_spec ca (length (b0 :: B'))); [contradiction|reflexivity].
  - intros ca cb _ _ HrA HrB Hc. unfold multiply. cbv zeta. rewrite (Ha0 ca HrA), (Hb0 cb HrB).
    destruct (Nat.eqb_spec ca (length (b0 :: B'))); [|contradiction].
    eexists. split; [reflexivity|]. split; [rewrite length_map; reflexivity|].
    intros row Hrow. apply in_map_iff in Hrow. destruct Hrow as (rowA & <- & _).
    rewrite length_map, length_seq. reflexivity.
Qed.

Lemma multiply_errors_witness :
  multiply [[1; 2]; [3; 4]] [[1; 0; 0]] = Err DimensionMismatch.
Proof.
  apply (proj1 (proj2 (proj2 (multiply_errors [[1; 2]; [3; 4]] [[1; 0; 0]]))) 2%nat).
  - discriminate.
  - discriminate.
  - intros row Hrow. simpl in Hrow. destruct Hrow as [<-|[<-|[]]]; reflexivity.
  - simpl. lia.
Defined.

(** X15: on rectangular matrices of matching shapes, applying the product
    [multiply A B] to a vector gives the same entries as applying [B] and
    then [A]. *)
Theorem multiply_multiplyVector (A B : Matrix) (v : list Q) (ca cb : nat) :
  A <> [] -> B <> [] -> rectangular A ca -> rectangular B cb ->
  length B = ca -> length v = cb ->
  exists C w r1 r2, multiply A B = Ok C /\ multiplyVector B v = Ok w /\
    multiplyVector C v = Ok r1 /\ multiplyVector A w = Ok r2 /\ Forall2 Qeq r1 r2.
Proof.
  intros HA HB HrA HrB HlB Hlv.
  destruct A as [|a0 A']; [congruence|]. destruct B as [|b0 B']; [congruence|].
  assert (Ha0 : length a0 = ca) by (apply HrA; left; reflexivity).
  assert (Hb0 : length b0 = cb) by (apply HrB; left; reflexivity).
  set (w := map (fun row => row_times row v cb) (b0 :: B')).
  set (E := fun (rowA : list Q) (j : nat) =>
              fold_left (fun acc k => acc + nth k rowA 0 * nth j (nth k (b0 :: B') []) 0) (seq 0 ca) 0).
  exists (map (fun rowA => map (E rowA) (seq 0 cb)) (a0 :: A')), w.
  exists (map (fun rowC => row_times rowC v cb) (map (fun rowA => map (E rowA) (seq 0 cb)) (a0 :: A'))).
  exists (map (fun rowA => row_times rowA w ca) (a0 :: A')).
  split; [|split; [|split; [|split]]].
  - unfold multiply. cbv zeta. rewrite Ha0, Hb0, HlB, Nat.eqb_refl. reflexivity.
  - unfold multiplyVector. rewrite Hb0, Hlv, Nat.eqb_refl. reflexivity.
  - unfold multiplyVector. cbn [map]. rewrite length_map, length_seq, Hlv, Nat.eqb_refl.
    reflexivity.
  - unfold multiplyVector. rewrite Ha0.
    replace (length w) with ca by (unfold w; rewrite length_map; symmetry; exact HlB).
    rewrite Nat.eqb_refl. reflexivity.
  - rewrite map_map. apply Forall2_map_Qeq. intros rowA _.
    rewrite !row_times_fsum.
    rewrite (fsum_ext _ (fun j => fsum (fun k => nth k rowA 0 * nth j (nth k (b0 :: B') []) 0 * nth j v 0) ca) cb).
    2:{ intros j Hj. rewrite nth_map_seq_gen by exact Hj. unfold E.
        change (fold_left (fun acc k => acc + nth k rowA 0 * nth j (nth k (b0 :: B') []) 0) (seq 0 ca) 0)
          with (fsum (fun k => nth k rowA 0 * nth j (nth k (b0 :: B') []) 0) ca).
        rewrite Qmult_comm, <- fsum_scal. apply fsum_ext. intros k _. ring. }
    rewrite fsum_swap. apply fsum_ext. intros k Hk.
    unfold w. rewrite (nth_map_gen _ (b0 :: B') k 0 []) by (rewrite HlB; exact Hk).
    rewrite row_times_fsum, <- fsum_scal. apply fsum_ext. intros j _. ring.
Qed.

Lemma multiply_multiplyVector_witness :
  exists C w r1 r2, multiply [[1; 2]; [3; 4]] [[0; 1]; [1; 0]] = Ok C /\
    multiplyVector [[0; 1]; [1; 0]] [5; 7] = Ok w /\
    multiplyVector C [5; 7] = Ok r1 /\ multiplyVector [[1; 2]; [3; 4]] w = Ok r2 /\
    Forall2 Qeq r1 r2.
Proof.
  apply (multiply_multiplyVector [[1; 2]; [3; 4]] [[0; 1]; [1; 0]] [5; 7] 2 2).
  - discriminate.
  - discriminate.
  - intros row Hrow. simpl in Hrow. destruct Hrow as [<-|[<-|[]]]; reflexivity.
  - intros row Hrow. simpl in Hrow. destruct Hrow as [<-|[<-|[]]]; reflexivity.
  - reflexivity.
  - reflexivity.
Defined.

(** X16: [transpose] throws a [TypeError] on an empty matrix and returns
    [[]] on a matrix whose rows are empty; on a non-empty rectangular
    matrix with [c >= 1] columns it returns a [c]-row matrix with one
    column per row of [A], and transposing that again gives [A] back. *)
Theorem transpose_involutive (A : Matrix) (c : nat) :
  (A = [] -> transpose A = Err TypeError) /\
  (A <> [] -> rectangular A 0 -> transpose A = Ok []) /\
  (A <> [] -> rectangular A c -> (1 <= c)%nat ->
   exists T, transpose A = Ok T /\ length T = c /\ rectangular T (length A) /\
             transpose T = Ok A).
Proof.
  split; [intros ->; reflexivity|].
  destruct A as [|a0 A']; [split; intros; congruence|].
  split.
  - intros _ Hr. unfold transpose. rewrite (Hr a0 (or_introl eq_refl)). reflexivity.
  - intros _ Hr Hc. set (A := a0 :: A') in *.
    assert (Ha0 : length a0 = c) by (apply Hr; left; reflexivity).
    set (T := map (fun j => map (fun row => nth j row 0) A) (seq 0 c)).
    exists T. split; [unfold transpose, A; rewrite Ha0; reflexivity|].
    split; [unfold T; rewrite length_map, length_seq; reflexivity|].
    split.
    + intros rowT HrowT. unfold T in HrowT. apply in_map_iff in HrowT.
      destruct HrowT as (j & <- & _). rewrite length_map. reflexivity.
    + unfold transpose. destruct T as [|t0 T'] eqn:ET.
      { apply (f_equal (@length (list Q))) in ET. unfold T in ET.
        rewrite length_map, length_seq in ET. simpl in ET. lia. }
      rewrite <- ET. f_equal.
      assert (Ht0 : length t0 = length A).
      { assert (Hin : In t0 T) by (rewrite ET; left; reflexivity).
        unfold T in Hin. apply in_map_iff in Hin. destruct Hin as (j & <- & _).
        rewrite length_map. reflexivity. }
      rewrite Ht0.
      apply (nth_ext _ _ [] []); [rewrite length_map, length_seq; reflexivity|].
      intros i Hi. rewrite length_map, length_seq in Hi.
      rewrite nth_map_seq_gen by exact Hi.
      assert (Hrow : length (nth i A []) = c) by (apply Hr, nth_In; exact Hi).
      rewrite <- (map_nth_seq_self (nth i A []) c Hrow).
      unfold T. rewrite map_map.
      apply map_ext_in. intros j _.
      rewrite (nth_map_gen _ A i 0 []) by exact Hi. reflexivity.
Qed.

Lemma transpose_involutive_witness :
  exists T, transpose [[1; 2; 3]; [4; 5; 6]] = Ok T /\ length T = 3%nat /\
            rectangular T 2 /\ transpose T = Ok [[1; 2; 3]; [4; 5; 6]].
Proof.
  apply (proj2 (proj2 (transpose_involutive [[1; 2; 3]; [4; 5; 6]] 3))).
  - discriminate.
  - intros row Hrow. simpl in Hrow. destruct Hrow as [<-|[<-|[]]]; reflexivity.
  - lia.
Defined.

(** X17: [reparameterizationMatrix u1 u2] maps the monomials
    [[1, t, t^2, t^3]] to the monomials of [s = u1 + (u2 - u1) t]. *)
Theorem reparameterizationMatrix_monomials (u1 u2 t : Q) :
  exists r, multiplyVector (reparameterizationMatrix u1 u2) [1; t; t * t; t * t * t] = Ok r /\
    Forall2 Qeq r [1; u1 + (u2 - u1) * t; (u1 + (u2 - u1) * t) * (u1 + (u2 - u1) * t);
                   (u1 + (u2 - u1) * t) * (u1 + (u2 - u1) * t) * (u1 + (u2 - u1) * t)].
Proof.
  eexists. split; [reflexivity|].
  unfold reparameterizationMatrix, row_times. cbv zeta. cbn [map length seq fold_left nth].
  repeat (apply Forall2_cons; [ring|]). apply Forall2_nil.
Qed.

End MatrixExtras.

(** ** Subdivision and trimming *)
Module TrimFacts.
Import Bezier BezierTrim CurveFacts.

Lemma length_left_loop (count : nat) (temp : list Point) (u : Q) :
  length (left_loop count temp u) = count.
Proof.
  revert temp. induction count as [|c IH]; intro temp; [reflexivity|].
  simpl. rewrite IH. reflexivity.
Qed.

Lemma length_right_loop (count : nat) (temp : list Point) (u : Q) (acc : list Point) :
  length (right_loop count temp u acc) = (count + length acc)%nat.
Proof.
  revert temp acc. induction count as [|c IH]; intros temp acc; [reflexivity|].
  simpl. rewrite IH. simpl. lia.
Qed.

Lemma length_level (l : list Point) (u : Q) :
  length (deCasteljau_level l u) = (length l - 1)%nat.
Proof.
  induction l as [|p [|q r] IH]; [reflexivity|reflexivity|].
  change (deCasteljau_level (p :: q :: r) u) with (lerp u p q :: deCasteljau_level (q :: r) u).
  simpl length. simpl length in IH. rewrite IH. lia.
Qed.

Lemma last_cons_ne {A : Type} (a : A) (l : list A) (d : A) :
  l <> [] -> last (a :: l) d = last l d.
Proof. destruct l; [congruence|reflexivity]. Qed.

(** At [u = 1] a de Casteljau level keeps the last point. *)
Lemma last_level_at_1 (l : list Point) :
  (2 <= length l)%nat ->
  point_eq (last (deCasteljau_level l 1) origin) (last l origin).
Proof.
  induction l as [|p [|q r] IH]; intro Hl; [simpl in Hl; lia|simpl in Hl; lia|].
  change (deCasteljau_level (p :: q :: r) 1) with (lerp 1 p q :: deCasteljau_level (q :: r) 1).
  destruct r as [|s r'].
  - cbn [deCasteljau_level last]. unfold lerp, point_eq. cbn [x y]. split; ring.
  - rewrite last_cons_ne.
    2:{ intro E. apply (f_equal (@length Point)) in E. rewrite length_level in E.
        simpl in E. lia. }
    rewrite (last_cons_ne p (q :: s :: r')) by discriminate.
    apply IH. simpl. lia.
Qed.

Lemma right_loop_at_1 (count : nat) (temp acc : list Point) (L : Point) :
  (count <= length temp)%nat ->
  (temp <> [] -> point_eq (last temp origin) L) ->
  (forall q, In q acc -> point_eq q L) ->
  forall q, In q (right_loop count temp 1 acc) -> point_eq q L.
Proof.
  revert temp acc. induction count as [|c IH]; intros temp acc Hc Hlast Hacc; [exact Hacc|].
  simpl. apply IH.
  - rewrite length_level. lia.
  - intro Hne. eapply point_eq_trans; [apply last_level_at_1|apply Hlast].
    + destruct temp as [|a [|b r]]; simpl in *; [lia| |lia]. simpl in Hne. congruence.
    + destruct temp; [simpl in Hc; lia|discriminate].
  - intros q [<-|Hq]; [apply Hlast; destruct temp; [simpl in Hc; lia|discriminate]|].
    apply Hacc, Hq.
Qed.

End TrimFacts.

Module TrimExtras.
Import Bezier Matrices MatrixOps BezierTrim CurveFacts TrimFacts.

(** X18: [subdivisionMatrix] throws [NotImplemented] for any degree other
    than 3. For degree 3 its rows lack the binomial factors: applied to
    the constant vector [[1, 1, 1, 1]] it gives
    [[1, 1, 1 - u(1-u), 1 - 2u(1-u)]], and applied to the x-coordinates of
    a cubic polygon it gives the points that the first loop of
    [getTrimmedControlPoints] collects at [u], except that the third is
    short by [u(1-u) x1] and the fourth by [2u(1-u)((1-u) x1 + u x2)]. *)
Theorem subdivisionMatrix_rows (points : list Point) (u : Q) :
  (forall n, n <> 3%Z -> subdivisionMatrix n u = Err (NotImplemented n)) /\
  (exists S r, subdivisionMatrix 3 u = Ok S /\ multiplyVector S [1; 1; 1; 1] = Ok r /\
     Forall2 Qeq r [1; 1; 1 - u * (1 - u); 1 - 2 * u * (1 - u)]) /\
  (length points = 4%nat ->
   exists S xs, subdivisionMatrix 3 u = Ok S /\ multiplyVector S (map x points) = Ok xs /\
     Forall2 Qeq xs
       [x (nth 0 (left_loop 4 points u) origin);
        x (nth 1 (left_loop 4 points u) origin);
        x (nth 2 (left_loop 4 points u) origin) - u * (1 - u) * x (nth 1 points origin);
        x (nth 3 (left_loop 4 points u) origin)
          - 2 * u * (1 - u) * ((1 - u) * x (nth 1 points origin) + u * x (nth 2 points origin))]).
Proof.
  split; [|split].
  - intros n Hn. unfold subdivisionMatrix.
    destruct (Z.eqb_spec n 3); [contradiction|reflexivity].
  - do 2 eexists. split; [reflexivity|]. split; [reflexivity|].
    unfold row_times. cbv zeta. cbn [map length seq fold_left nth].
    repeat (apply Forall2_cons; [ring|]). apply Forall2_nil.
  - intro Hl. destruct points as [|p0 [|p1 [|p2 [|p3 [|p4 r]]]]]; simpl in Hl; try lia.
    do 2 eexists. split; [reflexivity|]. split; [reflexivity|].
    unfold row_times. cbv zeta.
    cbn [map length seq fold_left nth left_loop hd deCasteljau_level].
    unfold lerp. cbn [x y].
    repeat (apply Forall2_cons; [ring|]). apply Forall2_nil.
Qed.

Lemma subdivisionMatrix_rows_witness :
  exists S xs, subdivisionMatrix 3 (1 # 2) = Ok S /\
    multiplyVector S (map x [mkPoint 0 0; mkPoint 1 2; mkPoint 3 2; mkPoint 4 0]) = Ok xs /\
    Forall2 Qeq xs
      [x (nth 0 (left_loop 4 [mkPoint 0 0; mkPoint 1 2; mkPoint 3 2; mkPoint 4 0] (1 # 2)) origin);
       x (nth 1 (left_loop 4 [mkPoint 0 0; mkPoint 1 2; mkPoint 3 2; mkPoint 4 0] (1 # 2)) origin);
       x (nth 2 (left_loop 4 [mkPoint 0 0; mkPoint 1 2; mkPoint 3 2; mkPoint 4 0] (1 # 2)) origin)
         - (1 # 2) * (1 - (1 # 2)) * x (nth 1 [mkPoint 0 0; mkPoint 1 2; mkPoint 3 2; mkPoint 4 0] origin);
       x (nth 3 (left_loop 4 [mkPoint 0 0; mkPoint 1 2; mkPoint 3 2; mkPoint 4 0] (1 # 2)) origin)
         - 2 * (1 # 2) * (1 - (1 # 2))
             * ((1 - (1 # 2)) * x (nth 1 [mkPoint 0 0; mkPoint 1 2; mkPoint 3 2; mkPoint 4 0] origin)
                + (1 # 2) * x (nth 2 [mkPoint 0 0; mkPoint 1 2; mkPoint 3 2; mkPoint 4 0] origin))].
Proof.
  apply (proj2 (proj2 (subdivisionMatrix_rows
                  [mkPoint 0 0; mkPoint 1 2; mkPoint 3 2; mkPoint 4 0] (1 # 2)))).
  reflexivity.
Defined.

(** X19: trimming to a range that ends at [u2 = 1] (with [u1 <> 1]) returns
    as many points as the input, all equal to the input's last point: the
    trimmed polygon collapses onto the curve's end point. *)
Theorem getTrimmedControlPoints_to_end (points : list Point) (a : Q) :
  points <> [] -> ~ a == 1 ->
  length (getTrimmedControlPoints points (mkTrim a 1)) = length points /\
  forall q, In q (getTrimmedControlPoints points (mkTrim a 1)) ->
            point_eq q (last points (mkPoint 0 0)).
Proof.
  intros Hne Hu1. unfold getTrimmedControlPoints. cbv zeta; cbn [u1 u2].
  split.
  - rewrite length_map, length_combine, length_left_loop, length_right_loop. simpl. lia.
  - intros q Hq. apply in_map_iff in Hq. destruct Hq as ([l r] & <- & Hlr).
    apply in_combine_r in Hlr.
    assert (Hr : point_eq r (last points origin)).
    { apply (right_loop_at_1 (length points) points []);
        [lia|intros _; split; reflexivity|intros q' []|exact Hlr]. }
    assert (Ha : (1 - a) / (1 - a) == 1).
    { field. intro E. apply Hu1. lra. }
    unfold lerp, point_eq in *. cbn [fst snd x y] in *. destruct Hr as [Hx Hy].
    rewrite Ha, Hx, Hy. unfold origin. split; ring.
Qed.

Lemma getTrimmedControlPoints_to_end_witness :
  length (getTrimmedControlPoints [mkPoint 0 0; mkPoint 1 2; mkPoint 4 0] (mkTrim (1 # 4) 1)) = 3%nat /\
  forall q, In q (getTrimmedControlPoints [mkPoint 0 0; mkPoint 1 2; mkPoint 4 0] (mkTrim (1 # 4) 1)) ->
            point_eq q (mkPoint 4 0).
Proof.
  apply (getTrimmedControlPoints_to_end [mkPoint 0 0; mkPoint 1 2; mkPoint 4 0] (1 # 4)).
  - discriminate.
  - intro E. discriminate E.
Defined.

End TrimExtras.

(** ** B-splines *)
Module BSplineMoreFacts.
Import BSpline BSplineCurve BSplineFacts CurveFacts.

Lemma validateKnots_sound (knots : KnotVector) (n k : nat) :
  validateKnots knots n k = true -> length knots = (n + k + 1)%nat /\ Spec.nondecreasing knots.
Proof.
  unfold validateKnots. destruct (Nat.eqb_spec (length knots) (n + k + 1)) as [Hl|Hl];
    [|discriminate].
  cbn [negb]. intro Hall. split; [exact Hl|].
  intros i Hi. rewrite forallb_forall in Hall.
  specialize (Hall i). rewrite in_seq in Hall.
  specialize (Hall ltac:(lia)).
  rewrite !knot_in_range in Hall by lia.
  unfold jgt, jlt in Hall. rewrite negb_involutive in Hall.
  apply Qle_bool_iff in Hall. replace (i + 1)%nat with (S i) in Hall by lia. exact Hall.
Qed.

(** The base case at the last knot value: only [N_{len-2,0}] is one. *)
Lemma coxDeBoor_base_at_last (knots : KnotVector) (u : Q) (j : nat) :
  Spec.nondecreasing knots -> (j + 1 < length knots)%nat ->
  u == nth (length knots - 1) knots 0 ->
  coxDeBoor j 0 u knots = Some (if Nat.eqb j (length knots - 2) then 1 else 0).
Proof.
  intros Hnd Hj Hu. cbn [coxDeBoor].
  rewrite !knot_in_range by lia.
  assert (Hle : Qle_bool (nth (j + 1) knots 0) u = true).
  { apply Qle_bool_iff. rewrite Hu.
    replace (length knots - 1)%nat with (j + 1 + (length knots - 1 - (j + 1)))%nat by lia.
    apply nondecreasing_le; [exact Hnd|lia]. }
  assert (Heq : Qeq_bool u (nth (length knots - 1) knots 0) = true)
    by (apply Qeq_bool_iff; exact Hu).
  unfold jle, jlt, jeq. rewrite Hle, Heq. cbn [negb].
  rewrite andb_false_r. cbn [orb andb].
  destruct (Nat.eqb_spec j (length knots - 2)) as [E|E];
    destruct (Z.eqb_spec (Z.of_nat j) (Z.of_nat (length knots) - Z.of_nat 0 - 2)) as [F|F];
    try reflexivity; exfalso; lia.
Qed.

(** One recursion step of [coxDeBoor] gives zero when each of its terms
    is zero or cut off by its guard. *)
Lemma coxDeBoor_step_zero (knots : KnotVector) (u : Q) (i k : nat) :
  (i + S k + 1 < length knots)%nat ->
  (exists a, coxDeBoor i k u knots = Some a /\ a == 0) ->
  ((exists b, coxDeBoor (i + 1) k u knots = Some b /\ b == 0) \/
   (nth (i + S k + 1) knots 0 - nth (i + 1) knots 0 == 0 /\
    exists b, coxDeBoor (i + 1) k u knots = Some b)) ->
  exists v, coxDeBoor i (S k) u knots = Some v /\ v == 0.
Proof.
  intros Hlen (a & Ha & Ha0) Hb. cbn [coxDeBoor].
  rewrite !knot_in_range by lia. rewrite Ha.
  destruct Hb as [(b & Hb & Hb0)|(Hd & b & Hb)]; rewrite Hb.
  - unfold jneq0, jdiv, jsub, jmul, jadd.
    destruct (Qeq_bool (nth (i + S k) knots 0 - nth i knots 0) 0);
      destruct (Qeq_bool (nth (i + S k + 1) knots 0 - nth (i + 1) knots 0) 0);
      cbn [negb]; eexists; (split; [reflexivity|]); rewrite ?Ha0, ?Hb0; ring.
  - apply Qeq_bool_iff in Hd.
    unfold jneq0, jdiv, jsub, jmul, jadd. rewrite Hd. cbn [negb].
    destruct (Qeq_bool (nth (i + S k) knots 0 - nth i knots 0) 0);
      cbn [negb]; eexists; (split; [reflexivity|]); rewrite ?Ha0; ring.
Qed.

Lemma coxDeBoor_zero_at_clamped_end_gen (knots : KnotVector) (u : Q) :
  Spec.nondecreasing knots -> (2 <= length knots)%nat ->
  nth (length knots - 2) knots 0 == nth (length knots - 1) knots 0 ->
  u == nth (length knots - 1) knots 0 ->
  forall k i, (i + S k + 1 < length knots)%nat ->
  exists v, coxDeBoor i (S k) u knots = Some v /\ v == 0.
Proof.
  intros Hnd H2 Hclamp Hu k. induction k as [|k IH]; intros i Hi.
  - apply coxDeBoor_step_zero; [exact Hi| |].
    + rewrite coxDeBoor_base_at_last by (auto; lia).
      destruct (Nat.eqb_spec i (length knots - 2)); [lia|].
      eexists. split; reflexivity.
    + rewrite coxDeBoor_base_at_last by (auto; lia).
      destruct (Nat.eqb_spec (i + 1) (length knots - 2)) as [E|E].
      * right. split.
        -- replace (i + 1 + 1)%nat with (length knots - 1)%nat by lia.
           rewrite E, Hclamp. ring.
        -- eexists. reflexivity.
      * left. eexists. split; reflexivity.
  - apply coxDeBoor_step_zero; [exact Hi| |left]; apply IH; lia.
Qed.

Lemma eval_loop_zero (cps : list Point) (i degree : nat) (u : Q) (knots : KnotVector)
    (ax ay : Q) :
  (forall p, In p cps -> Spec.finite_point p) ->
  (forall j, (i <= j < i + length cps)%nat ->
     exists v, coxDeBoor j degree u knots = Some v /\ v == 0) ->
  ax == 0 -> ay == 0 ->
  exists a b, evaluateBSpline_loop cps i degree u knots (Some ax) (Some ay)
                = mkPoint (Some a) (Some b) /\ a == 0 /\ b == 0.
Proof.
  revert i ax ay. induction cps as [|p cps IH]; intros i ax ay Hpts Hbasis Hax Hay; simpl.
  - exists ax, ay. auto.
  - destruct (Hpts p (or_introl eq_refl)) as (px & py & Hx & Hy).
    destruct (Hbasis i) as (v & Hv & Hv0); [simpl; lia|].
    rewrite Hx, Hy, Hv. simpl.
    apply IH.
    + intros q Hq. apply Hpts. right. exact Hq.
    + intros j Hj. apply Hbasis. simpl. lia.
    + rewrite Hax, Hv0. ring.
    + rewrite Hay, Hv0. ring.
Qed.

Lemma uniform_knot_lo (n k j : nat) :
  (j <= k)%nat -> nth j (generateUniformKnots n k) 0 = 0.
Proof.
  intro Hj. rewrite generateUniformKnots_eq.
  rewrite app_nth1 by (rewrite repeat_length; lia).
  apply nth_repeat_lt. lia.
Qed.

Lemma uniform_knot_hi (n k j : nat) :
  (k + 1 <= n)%nat -> (n <= j <= n + k)%nat -> nth j (generateUniformKnots n k) 0 = 1.
Proof.
  intros Hnk Hj. rewrite generateUniformKnots_eq.
  rewrite app_nth2 by (rewrite repeat_length; lia). rewrite repeat_length.
  rewrite app_nth2 by (rewrite length_map, length_seq; lia).
  rewrite length_map, length_seq. apply nth_repeat_lt. lia.
Qed.

Lemma uniform_param_last (n k numPoints : nat) :
  (k + 1 <= n)%nat -> (1 <= numPoints)%nat ->
  exists q, bspline_param k (generateUniformKnots n k) numPoints numPoints = Some q /\ q == 1.
Proof.
  intros Hnk Hnp. unfold bspline_param.
  pose proof (generateUniformKnots_length n k Hnk) as Hl.
  rewrite !knot_in_range by lia. rewrite Hl.
  replace (n + k + 1 - k - 1)%nat with n by lia.
  rewrite uniform_knot_lo, uniform_knot_hi by lia.
  unfold sample_param. destruct (Nat.eqb_spec numPoints 0) as [E|E]; [lia|].
  eexists. split; [reflexivity|].
  rewrite Qnat_div_n by exact Hnp. ring.
Qed.

Lemma uniform_zero_at_end (n k : nat) (q : Q) :
  (1 <= k)%nat -> (k + 1 <= n)%nat -> q == 1 ->
  forall i, (i < n)%nat -> exists v, coxDeBoor i k q (generateUniformKnots n k) = Some v /\ v == 0.
Proof.
  intros Hk Hnk Hq i Hi.
  pose proof (generateUniformKnots_length n k Hnk) as Hl.
  destruct k as [|k']; [lia|].
  apply coxDeBoor_zero_at_clamped_end_gen.
  - apply generateUniformKnots_nondecreasing. exact Hnk.
  - lia.
  - rewrite Hl, !uniform_knot_hi by lia. reflexivity.
  - rewrite Hl, uniform_knot_hi by lia. exact Hq.
  - lia.
Qed.


Lemma Qeq_bool_false (p q : Q) : ~ p == q -> Qeq_bool p q = false.
Proof.
  intro H. destruct (Qeq_bool p q) eqn:E; [|reflexivity].
  apply Qeq_bool_eq in E. contradiction.
Qed.

(** At a clamped start ([knots[0..k]] all equal to [a], [knots[k+1] > a])
    the basis [N_{j,m}(a)] is one for [j + m = k] and zero otherwise. *)
Lemma coxDeBoor_at_clamped_start (knots : KnotVector) (a u : Q) (k : nat) :
  Spec.nondecreasing knots -> (k + 1 < length knots)%nat ->
  (forall j, (j <= k)%nat -> nth j knots 0 == a) -> a < nth (k + 1) knots 0 -> u == a ->
  forall m j, (j + m + 1 < length knots)%nat ->
  exists v, coxDeBoor j m u knots = Some v /\ v == (if Nat.eqb (j + m) k then 1 else 0).
Proof.
  intros Hnd Hlen Hlo Hgap Hu.
  assert (Hhi : forall j, (k + 1 <= j < length knots)%nat -> a < nth j knots 0).
  { intros j Hj. apply (Qlt_le_trans _ (nth (k + 1) knots 0)); [exact Hgap|].
    pose proof (nondecreasing_le knots (k + 1) (j - (k + 1)) Hnd ltac:(lia)) as H.
    replace (k + 1 + (j - (k + 1)))%nat with j in H by lia. exact H. }
  induction m as [|m IH]; intros j Hj.
  - cbn [coxDeBoor]. rewrite !knot_in_range by lia.
    assert (Hlast : Qeq_bool u (nth (length knots - 1) knots 0) = false).
    { apply Qeq_bool_false. pose proof (Hhi (length knots - 1)%nat ltac:(lia)). lra. }
    unfold jle, jlt, jeq. rewrite Hlast, andb_false_l, orb_false_r, Nat.add_0_r.
    destruct (Nat.lt_trichotomy j k) as [Hjk|[Hjk|Hjk]].
    + assert (E : Qle_bool (nth (j + 1) knots 0) u = true)
        by (apply Qle_bool_iff; rewrite (Hlo (j + 1)%nat) by lia; lra).
      rewrite E. cbn [negb]. rewrite andb_false_r.
      destruct (Nat.eqb_spec j k); [lia|]. eexists. split; reflexivity.
    + subst j.
      assert (E1 : Qle_bool (nth k knots 0) u = true)
        by (apply Qle_bool_iff; rewrite (Hlo k) by lia; lra).
      assert (E2 : Qle_bool (nth (k + 1) knots 0) u = false).
      { destruct (Qle_bool (nth (k + 1) knots 0) u) eqn:E; [|reflexivity].
        apply Qle_bool_iff in E. lra. }
      rewrite E1, E2, Nat.eqb_refl. eexists. split; reflexivity.
    + assert (E1 : Qle_bool (nth j knots 0) u = false).
      { destruct (Qle_bool (nth j knots 0) u) eqn:E; [|reflexivity].
        apply Qle_bool_iff in E. pose proof (Hhi j ltac:(lia)). lra. }
      rewrite E1. cbn [andb].
      destruct (Nat.eqb_spec j k); [lia|]. eexists. split; reflexivity.
  - destruct (IH j ltac:(lia)) as (v1 & Hv1 & Hv1e).
    destruct (IH (j + 1)%nat ltac:(lia)) as (v2 & Hv2 & Hv2e).
    cbn [coxDeBoor]. rewrite !knot_in_range by lia. rewrite Hv1, Hv2.
    unfold jneq0, jdiv, jsub, jmul, jadd.
    destruct (Nat.eqb_spec (j + S m) k) as [EA|EA].
    + assert (Hv1z : v1 == 0)
        by (rewrite Hv1e; destruct (Nat.eqb_spec (j + m) k); [lia|reflexivity]).
      assert (Hv2o : v2 == 1)
        by (rewrite Hv2e; destruct (Nat.eqb_spec (j + 1 + m) k); [reflexivity|lia]).
      replace (j + S m + 1)%nat with (k + 1)%nat by lia.
      assert (Ht1 : nth (j + 1) knots 0 == a) by (apply Hlo; lia).
      rewrite (Qeq_bool_false (nth (k + 1) knots 0 - nth (j + 1) knots 0) 0)
        by (rewrite Ht1; intro; lra).
      cbn [negb].
      destruct (Qeq_bool (nth (j + S m) knots 0 - nth j knots 0) 0); cbn [negb];
        eexists; (split; [reflexivity|]); rewrite ?Hv1z, ?Qmult_0_r, Hv2o, Hu, Ht1; field; intro; lra.
    + destruct (Nat.eqb_spec (j + m) k) as [EB|EB].
      * assert (Hv1o : v1 == 1)
          by (rewrite Hv1e; destruct (Nat.eqb_spec (j + m) k); [reflexivity|lia]).
        assert (Hv2z : v2 == 0)
          by (rewrite Hv2e; destruct (Nat.eqb_spec (j + 1 + m) k); [lia|reflexivity]).
        replace (j + S m)%nat with (k + 1)%nat by lia.
        assert (Ht0 : nth j knots 0 == a) by (apply Hlo; lia).
        rewrite (Qeq_bool_false (nth (k + 1) knots 0 - nth j knots 0) 0)
          by (rewrite Ht0; intro; lra).
        cbn [negb].
        destruct (Qeq_bool (nth (k + 1 + 1) knots 0 - nth (j + 1) knots 0) 0); cbn [negb];
          eexists; (split; [reflexivity|]); rewrite ?Hv2z, ?Qmult_0_r, Hv1o, Hu, Ht0; field; intro; lra.
      * assert (Hv1z : v1 == 0)
          by (rewrite Hv1e; destruct (Nat.eqb_spec (j + m) k); [lia|reflexivity]).
        assert (Hv2z : v2 == 0)
          by (rewrite Hv2e; destruct (Nat.eqb_spec (j + 1 + m) k); [lia|reflexivity]).
        destruct (Qeq_bool (nth (j + S m) knots 0 - nth j knots 0) 0); cbn [negb];
          destruct (Qeq_bool (nth (j + S m + 1) knots 0 - nth (j + 1) knots 0) 0); cbn [negb];
          eexists; (split; [reflexivity|]); rewrite ?Hv1z, ?Hv2z; ring.
Qed.

Lemma eval_loop_const (cps : list Point) (i degree : nat) (u : Q) (knots : KnotVector)
    (ax ay : Q) :
  (forall p, In p cps -> Spec.finite_point p) ->
  (forall j, (i <= j < i + length cps)%nat ->
     exists v, coxDeBoor j degree u knots = Some v /\ v == 0) ->
  exists a b, evaluateBSpline_loop cps i degree u knots (Some ax) (Some ay)
                = mkPoint (Some a) (Some b) /\ a == ax /\ b == ay.
Proof.
  revert i ax ay. induction cps as [|p cps IH]; intros i ax ay Hpts Hbasis; simpl.
  - exists ax, ay. split; [reflexivity|split; reflexivity].
  - destruct (Hpts p (or_introl eq_refl)) as (px & py & Hx & Hy).
    destruct (Hbasis i) as (v & Hv & Hv0); [simpl; lia|].
    rewrite Hx, Hy, Hv. simpl.
    destruct (IH (S i) (ax + px * v) (ay + py * v)) as (a & b & Hab & Ha & Hb).
    + intros q Hq. apply Hpts. right. exact Hq.
    + intros j Hj. apply Hbasis. simpl. lia.
    + exists a, b. split; [exact Hab|]. rewrite Ha, Hb, Hv0. split; ring.
Qed.

Lemma uniform_knot_next_pos (n k : nat) :
  (k + 1 <= n)%nat -> 0 < nth (k + 1) (generateUniformKnots n k) 0.
Proof.
  intro Hnk. rewrite generateUniformKnots_eq.
  rewrite app_nth2 by (rewrite repeat_length; lia). rewrite repeat_length.
  replace (k + 1 - (k + 1))%nat with 0%nat by lia.
  destruct (n - k - 1)%nat as [|m] eqn:Em.
  - cbn [seq map app]. rewrite nth_repeat_lt by lia. reflexivity.
  - cbn [seq map app nth]. apply Qlt_shift_div_l; [unfold Qlt; simpl; lia|].
    rewrite Qmult_0_l. reflexivity.
Qed.

Lemma uniform_param_first (n k numPoints : nat) :
  (k + 1 <= n)%nat -> (1 <= numPoints)%nat ->
  exists q, bspline_param k (generateUniformKnots n k) 0 numPoints = Some q /\ q == 0.
Proof.
  intros Hnk Hnp. unfold bspline_param.
  pose proof (generateUniformKnots_length n k Hnk) as Hl.
  rewrite !knot_in_range by lia. rewrite Hl.
  replace (n + k + 1 - k - 1)%nat with n by lia.
  rewrite uniform_knot_lo, uniform_knot_hi by lia.
  unfold sample_param. destruct (Nat.eqb_spec numPoints 0) as [E|E]; [lia|].
  eexists. split; [reflexivity|].
  rewrite Qnat_div_0. ring.
Qed.

End BSplineMoreFacts.

Module BSplineExtras.
Import BSpline BSplineCurve BSplineEditor BSplineFacts BSplineMoreFacts CurveFacts.

(** X20: [validateKnots knots n k] accepts exactly the knot vectors of
    length [n + k + 1] whose adjacent knots never decrease. *)
Theorem validateKnots_iff (knots : KnotVector) (n k : nat) :
  validateKnots knots n k = true <-> length knots = (n + k + 1)%nat /\ Spec.nondecreasing knots.
Proof.
  split; [apply validateKnots_sound|intros [Hl Hnd]; apply validateKnots_true; assumption].
Qed.

(** X21: the B-spline editor builds its knots with
    [generateUniformKnots(n, min(degree, n - 1))] but validates them
    against [degree]; for [n >= 1] control points they pass exactly when
    [degree <= n - 1], so a larger degree leaves the curve undrawn. *)
Theorem initial_knots_valid (n degree : nat) :
  (1 <= n)%nat ->
  validateKnots (initial_knots n degree) n degree = true <-> (degree + 1 <= n)%nat.
Proof.
  intro Hn. unfold initial_knots. cbv zeta.
  destruct (Nat.le_gt_cases (degree + 1) n) as [Hd|Hd].
  - rewrite Nat.min_l by lia. split; [intros _; exact Hd|intros _].
    apply validateKnots_true.
    + apply generateUniformKnots_length. exact Hd.
    + apply generateUniformKnots_nondecreasing. exact Hd.
  - rewrite Nat.min_r by lia. split; [|lia].
    intro Hv. apply validateKnots_sound in Hv. destruct Hv as [Hl _].
    rewrite generateUniformKnots_length in Hl by lia. lia.
Qed.

Lemma initial_knots_valid_witness :
  (1 <= 2)%nat /\ validateKnots (initial_knots 2 3) 2 3 = false.
Proof.
  split; [lia|].
  destruct (validateKnots (initial_knots 2 3) 2 3) eqn:E; [|reflexivity].
  exfalso. apply (initial_knots_valid 2 3) in E; [lia|lia].
Defined.

(** X22: on non-decreasing knots, [coxDeBoor i k u] is zero for [u] below
    [knots[i]] or above [knots[i+k+1]] (local support). *)
Theorem coxDeBoor_local_support (i k : nat) (u : Q) (knots : KnotVector) :
  Spec.nondecreasing knots -> (i + k + 1 < length knots)%nat ->
  u < nth i knots 0 \/ nth (i + k + 1) knots 0 < u ->
  exists v, coxDeBoor i k u knots = Some v /\ v == 0.
Proof.
  intros Hnd. revert i. induction k as [|k IH]; intros i Hlen Hout.
  - cbn [coxDeBoor]. rewrite !knot_in_range by lia.
    assert (Hfalse : (jle (Some (nth i knots 0)) (Some u) && jlt (Some u) (Some (nth (i + 1) knots 0))
                      || jeq (Some u) (Some (nth (length knots - 1) knots 0))
                         && Z.eqb (Z.of_nat i) (Z.of_nat (length knots) - Z.of_nat 0 - 2)) = false).
    { unfold jle, jlt, jeq.
      assert (Hti : nth i knots 0 <= nth (i + 1) knots 0)
        by (replace (i + 1)%nat with (S i) by lia; apply Hnd; lia).
      assert (Htl : nth (i + 1) knots 0 <= nth (length knots - 1) knots 0).
      { replace (length knots - 1)%nat with (i + 1 + (length knots - 1 - (i + 1)))%nat by lia.
        apply nondecreasing_le; [exact Hnd|lia]. }
      rewrite Nat.add_0_r in Hout.
      destruct Hout as [Hlt|Hgt].
      - destruct (Qle_bool (nth i knots 0) u) eqn:E1.
        { apply Qle_bool_iff in E1. lra. }
        destruct (Qeq_bool u (nth (length knots - 1) knots 0)) eqn:E2.
        { apply Qeq_bool_iff in E2. lra. }
        reflexivity.
      - destruct (Qle_bool (nth (i + 1) knots 0) u) eqn:E1.
        2:{ exfalso. assert (Qle_bool (nth (i + 1) knots 0) u = true) by (apply Qle_bool_iff; lra).
            congruence. }
        rewrite andb_false_r. cbn [negb orb].
        destruct (Z.eqb_spec (Z.of_nat i) (Z.of_nat (length knots) - Z.of_nat 0 - 2)) as [E|E];
          [|apply andb_false_r].
        replace (length knots - 1)%nat with (i + 1)%nat by lia.
        destruct (Qeq_bool u (nth (i + 1) knots 0)) eqn:E2; [|reflexivity].
        apply Qeq_bool_iff in E2. lra. }
    rewrite Hfalse. eexists. split; reflexivity.
  - apply coxDeBoor_step_zero; [lia| |left]; apply IH; try lia.
    + destruct Hout as [Hlt|Hgt]; [left; exact Hlt|right].
      apply (Qle_lt_trans _ (nth (i + S k + 1) knots 0)); [|exact Hgt].
      replace (i + S k + 1)%nat with (i + k + 1 + 1)%nat by lia.
      apply nondecreasing_le; [exact Hnd|lia].
    + destruct Hout as [Hlt|Hgt]; [left|right].
      * apply (Qlt_le_trans _ (nth i knots 0)); [exact Hlt|].
        apply nondecreasing_le; [exact Hnd|lia].
      * replace (i + 1 + k + 1)%nat with (i + S k + 1)%nat by lia. exact Hgt.
Qed.

Lemma coxDeBoor_local_support_witness :
  exists v, coxDeBoor 0 1 (3 # 2) [0; 0; 1; 2; 3] = Some v /\ v == 0.
Proof.
  apply (coxDeBoor_local_support 0 1 (3 # 2) [0; 0; 1; 2; 3]).
  - intros i Hi. simpl in Hi.
    destruct i as [|[|[|[|i]]]]; simpl; try (vm_compute; discriminate); lia.
  - simpl. lia.
  - right. vm_compute. reflexivity.
Defined.

(** X23: on non-decreasing knots whose last two knots are equal (a clamped
    end), every basis function of degree [k >= 1] is zero at the last knot
    value, and so is every coordinate of [evaluateBSpline] there: the
    curve is evaluated at the origin instead of at its last control
    point. *)
Theorem coxDeBoor_zero_at_clamped_end (cps : list Point) (k : nat) (u : Q) (knots : KnotVector) :
  Spec.nondecreasing knots -> (1 <= k)%nat -> (2 <= length knots)%nat ->
  nth (length knots - 2) knots 0 == nth (length knots - 1) knots 0 ->
  u == nth (length knots - 1) knots 0 ->
  (forall i, (i + k + 1 < length knots)%nat ->
     exists v, coxDeBoor i k u knots = Some v /\ v == 0) /\
  ((forall p, In p cps -> Spec.finite_point p) -> (length cps + k + 1 <= length knots)%nat ->
   exists a b, evaluateBSpline cps k u knots = mkPoint (Some a) (Some b) /\ a == 0 /\ b == 0).
Proof.
  intros Hnd Hk H2 Hclamp Hu.
  destruct k as [|k']; [lia|].
  assert (Hb : forall i, (i + S k' + 1 < length knots)%nat ->
                 exists v, coxDeBoor i (S k') u knots = Some v /\ v == 0)
    by (apply coxDeBoor_zero_at_clamped_end_gen; assumption).
  split; [exact Hb|].
  intros Hpts Hlen. unfold evaluateBSpline.
  apply eval_loop_zero; [exact Hpts| |reflexivity|reflexivity].
  intros j Hj. apply Hb. lia.
Qed.

Lemma coxDeBoor_zero_at_clamped_end_witness :
  exists a b, evaluateBSpline [mkPoint (Some 1) (Some 2); mkPoint (Some 3) (Some 4); mkPoint (Some 5) (Some 1)]
                2 1 [0; 0; 0; 1; 1; 1] = mkPoint (Some a) (Some b) /\ a == 0 /\ b == 0.
Proof.
  apply (coxDeBoor_zero_at_clamped_end
           [mkPoint (Some 1) (Some 2); mkPoint (Some 3) (Some 4); mkPoint (Some 5) (Some 1)]
           2 1 [0; 0; 0; 1; 1; 1]).
  - intros i Hi. simpl in Hi.
    destruct i as [|[|[|[|[|i]]]]]; simpl; try (vm_compute; discriminate); lia.
  - lia.
  - simpl. lia.
  - reflexivity.
  - reflexivity.
  - intros p Hp. simpl in Hp.
    destruct Hp as [<-|[<-|[<-|[]]]]; eexists _, _; split; reflexivity.
  - simpl. lia.
Defined.

(** X24: with the uniform clamped knots [generateUniformKnots n degree]
    ([1 <= degree <= n - 1]) and [n] finite control points,
    [generateBSplineCurvePoints] returns [numPoints + 1] samples, and its
    last sample (at [u = 1]) is the origin rather than the last control
    point. *)
Theorem generateBSplineCurvePoints_uniform_last (cps : list Point) (degree numPoints : nat) :
  (1 <= degree)%nat -> (degree + 1 <= length cps)%nat -> (1 <= numPoints)%nat ->
  (forall p, In p cps -> Spec.finite_point p) ->
  length (generateBSplineCurvePoints cps degree
            (generateUniformKnots (length cps) degree) numPoints) = (numPoints + 1)%nat /\
  exists a b,
    nth numPoints (generateBSplineCurvePoints cps degree
                     (generateUniformKnots (length cps) degree) numPoints) None
      = Some (mkPoint (Some a) (Some b)) /\ a == 0 /\ b == 0.
Proof.
  intros Hk Hnk Hnp Hpts.
  split; [unfold generateBSplineCurvePoints; rewrite length_map, length_seq; reflexivity|].
  unfold generateBSplineCurvePoints.
  rewrite (nth_map_seq_gen _ (numPoints + 1) numPoints None) by lia.
  destruct (uniform_param_last (length cps) degree numPoints Hnk Hnp) as (q & Hq & Hq1).
  rewrite Hq. cbn [option_map].
  assert (H : exists a b, evaluateBSpline cps degree q (generateUniformKnots (length cps) degree)
                          = mkPoint (Some a) (Some b) /\ a == 0 /\ b == 0).
  { unfold evaluateBSpline. apply eval_loop_zero; [exact Hpts| |reflexivity|reflexivity].
    intros j Hj. apply uniform_zero_at_end; [exact Hk|exact Hnk|exact Hq1|lia]. }
  destruct H as (a & b & -> & Ha & Hb). exists a, b. auto.
Qed.

Lemma generateBSplineCurvePoints_uniform_last_witness :
  exists a b,
    nth 4 (generateBSplineCurvePoints
             [mkPoint (Some 1) (Some 2); mkPoint (Some 2) (Some 1); mkPoint (Some 3) (Some 3);
              mkPoint (Some 4) (Some 2); mkPoint (Some 5) (Some 1)] 3
             (generateUniformKnots 5 3) 4) None
      = Some (mkPoint (Some a) (Some b)) /\ a == 0 /\ b == 0.
Proof.
  apply (generateBSplineCurvePoints_uniform_last
           [mkPoint (Some 1) (Some 2); mkPoint (Some 2) (Some 1); mkPoint (Some 3) (Some 3);
            mkPoint (Some 4) (Some 2); mkPoint (Some 5) (Some 1)] 3 4).
  - lia.
  - simpl. lia.
  - lia.
  - intros p Hp. simpl in Hp.
    destruct Hp as [<-|[<-|[<-|[<-|[<-|[]]]]]]; eexists _, _; split; reflexivity.
Defined.

(** X25: [calculateBasisFunctions] returns one row per control point with
    [numPoints + 1] samples each; with the uniform clamped knots
    ([1 <= degree <= n - 1], [numPoints >= 1]) the last sample of every row
    is zero, so the plotted basis functions do not sum to one at the end
    of the domain. *)
Theorem calculateBasisFunctions_uniform (n degree numPoints : nat) :
  (1 <= degree)%nat -> (degree + 1 <= n)%nat -> (1 <= numPoints)%nat ->
  length (calculateBasisFunctions n degree (generateUniformKnots n degree) numPoints) = n /\
  forall i, (i < n)%nat ->
    length (nth i (calculateBasisFunctions n degree (generateUniformKnots n degree) numPoints) [])
      = (numPoints + 1)%nat /\
    exists v, nth numPoints (nth i (calculateBasisFunctions n degree
                                      (generateUniformKnots n degree) numPoints) []) None
                = Some (Some v) /\ v == 0.
Proof.
  intros Hk Hnk Hnp.
  unfold calculateBasisFunctions.
  split; [rewrite length_map, length_seq; reflexivity|].
  intros i Hi. rewrite (nth_map_seq_gen _ n i []) by exact Hi.
  split; [rewrite length_map, length_seq; reflexivity|].
  rewrite (nth_map_seq_gen _ (numPoints + 1) numPoints None) by lia.
  destruct (uniform_param_last n degree numPoints Hnk Hnp) as (q & Hq & Hq1).
  rewrite Hq. cbn [option_map].
  destruct (uniform_zero_at_end n degree q Hk Hnk Hq1 i Hi) as (v & Hv & Hv0).
  rewrite Hv. exists v. auto.
Qed.

Lemma calculateBasisFunctions_uniform_witness :
  exists v, nth 10 (nth 2 (calculateBasisFunctions 4 2 (generateUniformKnots 4 2) 10) []) None
              = Some (Some v) /\ v == 0.
Proof.
  apply (proj2 (calculateBasisFunctions_uniform 4 2 10 ltac:(lia) ltac:(lia) ltac:(lia)) 2%nat).
  lia.
Defined.

(** X26: with the uniform clamped knots [generateUniformKnots n degree]
    ([1 <= degree <= n - 1]) and [n] finite control points, the first
    sample of [generateBSplineCurvePoints] (at [u = 0]) is the first
    control point. *)
Theorem generateBSplineCurvePoints_uniform_first (p0 : Point) (rest : list Point)
    (degree numPoints : nat) :
  (1 <= degree)%nat -> (degree + 1 <= length (p0 :: rest))%nat -> (1 <= numPoints)%nat ->
  (forall p, In p (p0 :: rest) -> Spec.finite_point p) ->
  exists px py a b, x p0 = Some px /\ y p0 = Some py /\
    nth 0 (generateBSplineCurvePoints (p0 :: rest) degree
             (generateUniformKnots (length (p0 :: rest)) degree) numPoints) None
      = Some (mkPoint (Some a) (Some b)) /\ a == px /\ b == py.
Proof.
  intros Hk Hnk Hnp Hpts.
  set (n := length (p0 :: rest)) in *.
  set (knots := generateUniformKnots n degree).
  pose proof (generateUniformKnots_length n degree Hnk) as Hl. fold knots in Hl.
  destruct (Hpts p0 (or_introl eq_refl)) as (px & py & Hx & Hy).
  unfold generateBSplineCurvePoints.
  rewrite (nth_map_seq_gen _ (numPoints + 1) 0 None) by lia.
  destruct (uniform_param_first n degree numPoints Hnk Hnp) as (q & Hq & Hq0).
  fold knots in Hq. rewrite Hq. cbn [option_map].
  assert (Hb : forall j, (j + degree + 1 < length knots)%nat ->
            exists v, coxDeBoor j degree q knots = Some v /\
                      v == (if Nat.eqb (j + degree) degree then 1 else 0)).
  { intro j. apply (coxDeBoor_at_clamped_start knots 0 q degree).
    - apply generateUniformKnots_nondecreasing. exact Hnk.
    - lia.
    - intros i Hi. unfold knots. rewrite uniform_knot_lo by exact Hi. reflexivity.
    - apply uniform_knot_next_pos. exact Hnk.
    - exact Hq0. }
  destruct (Hb 0%nat ltac:(lia)) as (v0 & Hv0 & Hv0e). cbn [Nat.add Nat.eqb] in Hv0e.
  rewrite Nat.eqb_refl in Hv0e.
  unfold evaluateBSpline. cbn [evaluateBSpline_loop]. rewrite Hx, Hy, Hv0. cbn [jadd jmul].
  destruct (eval_loop_const rest 1 degree q knots (0 + px * v0) (0 + py * v0)) as (a & b & Hab & Ha & Hb').
  - intros p Hp. apply Hpts. right. exact Hp.
  - intros j Hj. destruct (Hb j ltac:(simpl in Hnk, Hl |- *; lia)) as (v & Hv & Hve).
    exists v. split; [exact Hv|]. rewrite Hve.
    destruct (Nat.eqb_spec (j + degree) degree); [lia|reflexivity].
  - exists px, py, a, b. split; [reflexivity|]. split; [reflexivity|].
    split; [rewrite Hab; reflexivity|]. rewrite Ha, Hb', Hv0e. split; ring.
Qed.

Lemma generateBSplineCurvePoints_uniform_first_witness :
  exists px py a b, x (mkPoint (Some 1) (Some 2)) = Some px /\ y (mkPoint (Some 1) (Some 2)) = Some py /\
    nth 0 (generateBSplineCurvePoints
             [mkPoint (Some 1) (Some 2); mkPoint (Some 2) (Some 1); mkPoint (Some 3) (Some 3);
              mkPoint (Some 4) (Some 2); mkPoint (Some 5) (Some 1)] 3
             (generateUniformKnots 5 3) 4) None
      = Some (mkPoint (Some a) (Some b)) /\ a == px /\ b == py.
Proof.
  apply (generateBSplineCurvePoints_uniform_first (mkPoint (Some 1) (Some 2))
           [mkPoint (Some 2) (Some 1); mkPoint (Some 3) (Some 3);
            mkPoint (Some 4) (Some 2); mkPoint (Some 5) (Some 1)] 3 4).
  - lia.
  - simpl. lia.
  - lia.
  - intros p Hp. simpl in Hp.
    destruct Hp as [<-|[<-|[<-|[<-|[<-|[]]]]]]; eexists _, _; split; reflexivity.
Defined.

End BSplineExtras.
